(** * Liberty Country music cog: queue engine, scheduler loop and control ingestor

    A shallow embedding of [src/cogs/music_power.py].  Python objects that the
    code mutates in place ([GuildPlayer], the [players] dictionary) are modelled
    by explicit state passing; a Python exception is a [Raise] result that keeps
    the state reached so far. *)

From Stdlib Require Import ZArith List String Ascii Permutation Lia.
From Stdlib.Strings Require Import Byte.
From stdpp Require Import base option list gmap strings pretty.

Import ListNotations.
Local Open Scope string_scope.
Local Open Scope list_scope.
Local Open Scope Z_scope.

(** ** Python values and exceptions *)

Inductive PyExc :=
| AttributeError
| TypeError
| ValueError
| OverflowError
| IndexError
| ClientException.

Inductive result (A : Type) :=
| Ok (a : A)
| Raise (e : PyExc).

Arguments Ok {A} a.
Arguments Raise {A} e.

(** Sequencing: a raised exception skips the rest of the block. *)
#[global] Instance result_ret : MRet result := @Ok.

#[global] Instance result_bind : MBind result := fun A B k m =>
  match m with
  | Ok a => k a
  | Raise e => Raise e
  end.

(** [len(l)] as a Python integer. *)
Definition py_len {A : Type} (l : list A) : Z := Z.of_nat (length l).

(** [list.pop(i)]: a negative index counts from the end, an index outside the
    list raises [IndexError]. *)
Definition py_pop {A : Type} (i : Z) (l : list A) : result (A * list A) :=
  let k := if i <? 0 then i + py_len l else i in
  if (k <? 0) || (py_len l <=? k) then Raise IndexError
  else match l !! Z.to_nat k with
       | Some x => Ok (x, delete (Z.to_nat k) l)
       | None => Raise IndexError
       end.

(** [list.insert(j, x)]: the index is clamped into [0, len(l)], a negative one
    counting from the end first. *)
Definition py_insert {A : Type} (j : Z) (x : A) (l : list A) : list A :=
  let k := if j <? 0 then Z.max 0 (j + py_len l) else Z.min j (py_len l) in
  take (Z.to_nat k) l ++ x :: drop (Z.to_nat k) l.

(** ** Tracks and the per-guild player *)

Record Track := mkTrack {
  title : string;
  url : string;
  webpage_url : string;
  duration : Z;
  requester_id : Z;
  thumbnail : option string;
  added_at : Z
}.

(** The part of [discord.VoiceClient] the cog reads and drives. *)
Inductive VoiceStatus := VIdle | VPlaying | VPaused.

(** A [PCMVolumeTransformer] over an FFmpeg source; [src_volume] is the percent
    value the code divides by [100.0]. *)
Record AudioSource := mkSource {
  src_stream : string;
  src_volume : Z
}.

Record VoiceClient := mkVoice {
  vc_connected : bool;
  vc_status : VoiceStatus;
  vc_source : option AudioSource
}.

Inductive TaskState := TaskRunning | TaskDone.

Record GuildPlayer := mkPlayer {
  guild_id : Z;
  queue : list Track;
  volume : Z;
  loop_mode : string;
  current : option Track;
  voice : option VoiceClient;
  next_event : bool;
  play_task : option TaskState;
  vc_ready : bool
}.

(** [GuildPlayer.__init__] *)
Definition new_player (gid : Z) : GuildPlayer :=
  {| guild_id := gid; queue := []; volume := 100; loop_mode := "off";
     current := None; voice := None; next_event := false;
     play_task := None; vc_ready := false |}.

Definition set_queue (q : list Track) (gp : GuildPlayer) : GuildPlayer :=
  {| guild_id := guild_id gp; queue := q; volume := volume gp;
     loop_mode := loop_mode gp; current := current gp; voice := voice gp;
     next_event := next_event gp; play_task := play_task gp;
     vc_ready := vc_ready gp |}.

Definition set_stored_volume (v : Z) (gp : GuildPlayer) : GuildPlayer :=
  {| guild_id := guild_id gp; queue := queue gp; volume := v;
     loop_mode := loop_mode gp; current := current gp; voice := voice gp;
     next_event := next_event gp; play_task := play_task gp;
     vc_ready := vc_ready gp |}.

Definition set_loop_mode (m : string) (gp : GuildPlayer) : GuildPlayer :=
  {| guild_id := guild_id gp; queue := queue gp; volume := volume gp;
     loop_mode := m; current := current gp; voice := voice gp;
     next_event := next_event gp; play_task := play_task gp;
     vc_ready := vc_ready gp |}.

Definition set_current (c : option Track) (gp : GuildPlayer) : GuildPlayer :=
  {| guild_id := guild_id gp; queue := queue gp; volume := volume gp;
     loop_mode := loop_mode gp; current := c; voice := voice gp;
     next_event := next_event gp; play_task := play_task gp;
     vc_ready := vc_ready gp |}.

Definition set_voice (v : option VoiceClient) (gp : GuildPlayer) : GuildPlayer :=
  {| guild_id := guild_id gp; queue := queue gp; volume := volume gp;
     loop_mode := loop_mode gp; current := current gp; voice := v;
     next_event := next_event gp; play_task := play_task gp;
     vc_ready := vc_ready gp |}.

Definition set_next_event (b : bool) (gp : GuildPlayer) : GuildPlayer :=
  {| guild_id := guild_id gp; queue := queue gp; volume := volume gp;
     loop_mode := loop_mode gp; current := current gp; voice := voice gp;
     next_event := b; play_task := play_task gp; vc_ready := vc_ready gp |}.

Definition set_play_task (t : option TaskState) (gp : GuildPlayer) : GuildPlayer :=
  {| guild_id := guild_id gp; queue := queue gp; volume := volume gp;
     loop_mode := loop_mode gp; current := current gp; voice := voice gp;
     next_event := next_event gp; play_task := t; vc_ready := vc_ready gp |}.

Definition set_vc_ready (b : bool) (gp : GuildPlayer) : GuildPlayer :=
  {| guild_id := guild_id gp; queue := queue gp; volume := volume gp;
     loop_mode := loop_mode gp; current := current gp; voice := voice gp;
     next_event := next_event gp; play_task := play_task gp; vc_ready := b |}.

(** ** Queue operations of [GuildPlayer] *)

Definition q_len (gp : GuildPlayer) : Z := py_len (queue gp).

Definition q_clear (gp : GuildPlayer) : GuildPlayer := set_queue [] gp.

Definition q_add (track : Track) (to_front : bool) (gp : GuildPlayer) : GuildPlayer :=
  if to_front then set_queue (py_insert 0 track (queue gp)) gp
  else set_queue (queue gp ++ [track]) gp.

(** [q_move]: 1-based indices; the result pairs the returned flag with the
    player after the call. *)
Definition q_move (src dst : Z) (gp : GuildPlayer) : result (bool * GuildPlayer) :=
  let i := src - 1 in
  let j := dst - 1 in
  if (i <? 0) || (j <? 0) || (py_len (queue gp) <=? i) || (py_len (queue gp) <=? j)
  then Ok (false, gp)
  else
    '(item, rest) ← py_pop i (queue gp);
    Ok (true, set_queue (py_insert j item rest) gp).

(** [q_remove]: [None] is Python's [None], the not-found result. *)
Definition q_remove (index : Z) (gp : GuildPlayer) : result (option Track * GuildPlayer) :=
  let i := index - 1 in
  if (0 <=? i) && (i <? py_len (queue gp))
  then
    '(item, rest) ← py_pop i (queue gp);
    Ok (Some item, set_queue rest gp)
  else Ok (None, gp).

(** ** Decoded JSON values

    What [json.loads] yields: [None], booleans, integers, floats, strings, lists
    and dictionaries with string keys.  A float is kept as the value it denotes,
    [m * 2^e], or as one of the specials. *)

Set Warnings "-register-all".

Inductive pyfloat :=
| FFinite (m e : Z)
| FInf (negative : bool)
| FNaN.

Inductive json :=
| JNull
| JBool (b : bool)
| JInt (n : Z)
| JFloat (x : pyfloat)
| JStr (s : string)
| JList (l : list json)
| JDict (d : list (string * json)).

(** Python truthiness, as [x or default] and [if x] test it. *)
Definition truthy (v : json) : bool :=
  match v with
  | JNull => false
  | JBool b => b
  | JInt n => negb (n =? 0)
  | JFloat (FFinite m _) => negb (m =? 0)
  | JFloat _ => true
  | JStr s => negb (String.eqb s "")
  | JList l => match l with [] => false | _ => true end
  | JDict d => match d with [] => false | _ => true end
  end.

(** [v or d] *)
Definition py_or (v d : json) : json := if truthy v then v else d.

(** [d.get(k)] on a dictionary: the value, or [None] when the key is absent. *)
Definition dict_get (k : string) (d : list (string * json)) : json :=
  match find (fun kv => String.eqb (fst kv) k) d with
  | Some kv => snd kv
  | None => JNull
  end.

(** [v.get(k)]: only a dictionary has the method. *)
Definition py_get (v : json) (k : string) : result json :=
  match v with
  | JDict d => Ok (dict_get k d)
  | _ => Raise AttributeError
  end.

(** [int(x)] on a float truncates toward zero. *)
Definition float_to_int (x : pyfloat) : result Z :=
  match x with
  | FFinite m e => Ok (if 0 <=? e then m * 2 ^ e else Z.quot m (2 ^ (- e)))
  | FInf _ => Raise OverflowError
  | FNaN => Raise ValueError
  end.

(** ** The runtime the cog runs on

    Library and collaborator behaviour the code calls but does not define:
    string methods, [int] and [str] conversions, the JSON decoder, yt-dlp and
    the random generator.  Every definition below is stated for an arbitrary
    runtime. *)

Class Runtime := {
  (** [s.lower()] *)
  str_lower : string -> string;
  (** [s.strip()] *)
  str_strip : string -> string;
  (** [int(s)] for a string [s]; [ValueError] when it is no integer literal *)
  str_to_int : string -> result Z;
  (** [str(v)] for a value that is not a string *)
  value_to_str : json -> string;
  (** [json.loads(line.decode("utf-8", "ignore"))] *)
  json_loads : list byte -> result json;
  (** [ytdl_search(query)]: the tracks built from what yt-dlp extracts, each
      with [requester_id] 0 *)
  ytdl_search : string -> result (list Track);
  (** [extract_audio_url(query)]: the stream url, [None] on any failure *)
  extract_audio_url : string -> option string;
  (** [random.shuffle]: the permutation it picks *)
  random_shuffle : list Track -> list Track;
  random_shuffle_perm : forall l, Permutation (random_shuffle l) l
}.

(** ** The voice client (transport) *)

Definition vc_is_playing (v : VoiceClient) : bool :=
  match vc_status v with VPlaying => true | _ => false end.

Definition vc_is_paused (v : VoiceClient) : bool :=
  match vc_status v with VPaused => true | _ => false end.

Definition vc_pause (v : VoiceClient) : VoiceClient :=
  match vc_status v with
  | VIdle => v
  | _ => mkVoice (vc_connected v) VPaused (vc_source v)
  end.

Definition vc_resume (v : VoiceClient) : VoiceClient :=
  match vc_status v with
  | VIdle => v
  | _ => mkVoice (vc_connected v) VPlaying (vc_source v)
  end.

(** [stop()] drops the audio player; its [after] callback reaches the session
    later, as [completion_signal]. *)
Definition vc_stop (v : VoiceClient) : VoiceClient :=
  mkVoice (vc_connected v) VIdle None.

Definition vc_disconnect (v : VoiceClient) : VoiceClient :=
  mkVoice false VIdle None.

(** [play(source, after=...)] raises [ClientException] when the client is not
    connected or is already playing. *)
Definition vc_play (s : AudioSource) (v : VoiceClient) : result VoiceClient :=
  if negb (vc_connected v) then Raise ClientException
  else if vc_is_playing v then Raise ClientException
  else Ok (mkVoice (vc_connected v) VPlaying (Some s)).

Definition vc_set_source_volume (vol : Z) (v : VoiceClient) : VoiceClient :=
  match vc_source v with
  | Some s => mkVoice (vc_connected v) (vc_status v) (Some (mkSource (src_stream s) vol))
  | None => v
  end.

(** [x is not None], which is also the truth value of a [Track], a voice
    client or an audio source: none of these classes defines [__bool__] or
    [__len__]. *)
Definition present {A : Type} (o : option A) : bool :=
  match o with
  | Some _ => true
  | None => false
  end.

(** [gp.voice and p(gp.voice)] *)
Definition voice_and (p : VoiceClient -> bool) (gp : GuildPlayer) : bool :=
  match voice gp with
  | Some v => p v
  | None => false
  end.

(** A method call on [gp.voice], which is known to be present. *)
Definition on_voice (f : VoiceClient -> VoiceClient) (gp : GuildPlayer) : GuildPlayer :=
  set_voice (f <$> voice gp) gp.

(** ** Session operations *)

(** [GuildPlayer.disconnect] *)
Definition disconnect (gp : GuildPlayer) : GuildPlayer :=
  let gp := set_queue [] gp in
  let gp := set_current None gp in
  let gp := set_next_event true gp in
  let gp := if voice_and vc_connected gp then on_voice vc_disconnect gp else gp in
  let gp := set_voice None gp in
  set_vc_ready false gp.

(** [GuildPlayer.start_player_loop]: a task that is still running is kept. *)
Definition start_player_loop (gp : GuildPlayer) : GuildPlayer :=
  match play_task gp with
  | Some TaskRunning => gp
  | _ => set_play_task (Some TaskRunning) gp
  end.

(** [GuildPlayer.set_volume] *)
Definition set_volume (vol : Z) (gp : GuildPlayer) : GuildPlayer :=
  let gp := set_stored_volume (Z.max 1 (Z.min 200 vol)) gp in
  if voice_and (fun v => present (vc_source v)) gp
  then on_voice (vc_set_source_volume (volume gp)) gp
  else gp.

(** The transport's [after] callback, marshalled onto the event loop:
    [next_event.set()]. *)
Definition completion_signal (gp : GuildPlayer) : GuildPlayer :=
  set_next_event true gp.

(** The repeat-mode dispatch of [_player_loop], run once [next_event] is set. *)
Definition post_completion (gp : GuildPlayer) : GuildPlayer :=
  if String.eqb (loop_mode gp) "track" && present (current gp) then gp
  else if String.eqb (loop_mode gp) "queue" && present (current gp)
  then set_current None (set_queue (queue gp ++ option_list (current gp)) gp)
  else set_current None gp.

(** ** The scheduler loop and the control ingestor *)

Section Cog.
Context {R : Runtime}.

(** [int(v)] *)
Definition py_int (v : json) : result Z :=
  match v with
  | JNull => Raise TypeError
  | JBool b => Ok (if b then 1 else 0)
  | JInt n => Ok n
  | JFloat x => float_to_int x
  | JStr s => str_to_int s
  | JList _ => Raise TypeError
  | JDict _ => Raise TypeError
  end.

(** [str(v)] *)
Definition py_str (v : json) : string :=
  match v with
  | JStr s => s
  | _ => value_to_str v
  end.

(** [v.lower()]: only a string has the method. *)
Definition py_lower (v : json) : result string :=
  match v with
  | JStr s => Ok (str_lower s)
  | _ => Raise AttributeError
  end.

(** [GuildPlayer._play_current_track]; building the FFmpeg source is taken
    to succeed. *)
Definition play_current_track (gp : GuildPlayer) : result GuildPlayer :=
  match voice gp, current gp with
  | Some v, Some track =>
      let query := if String.eqb (url track) "" then webpage_url track else url track in
      match extract_audio_url query with
      | None => Ok (set_next_event true gp)
      | Some src_url =>
          if String.eqb src_url "" then Ok (set_next_event true gp)
          else
            v' ← vc_play (mkSource src_url (volume gp)) v;
            Ok (set_voice (Some v') gp)
      end
  | _, _ => Ok gp
  end.

(** Where one pass through the body of [_player_loop] leaves the task. *)
Inductive LoopOutcome :=
| WaitReady (gp : GuildPlayer)
| IdleSleep (gp : GuildPlayer)
| AwaitCompletion (gp : GuildPlayer)
| Completed (gp : GuildPlayer)
| Backoff (gp : GuildPlayer).

(** [await self.next_event.wait()] and what follows it in the pass: the wait
    returns at once when the signal is already set. *)
Definition await_completion (gp : GuildPlayer) : LoopOutcome :=
  if next_event gp then Completed (post_completion gp)
  else AwaitCompletion gp.

(** One pass through the body of [_player_loop], with no other task
    interleaved: blocked on [_vc_ready], asleep on an empty queue, blocked on
    [next_event], through the repeat-mode dispatch, or in the [except] arm. *)
Definition player_iteration (gp : GuildPlayer) : LoopOutcome :=
  if negb (vc_ready gp) then WaitReady gp
  else
    let gp := set_next_event false gp in
    let picked :=
      if present (current gp) then Ok (Some gp)
      else match queue gp with
           | [] => Ok None
           | _ =>
               '(head, rest) ← py_pop 0 (queue gp);
               Ok (Some (set_current (Some head) (set_queue rest gp)))
           end in
    match picked with
    | Raise _ => Backoff gp
    | Ok None => IdleSleep gp
    | Ok (Some gp1) =>
        match play_current_track gp1 with
        | Raise _ => Backoff gp1
        | Ok gp2 => await_completion gp2
        end
    end.

(** [GuildPlayer.q_shuffle] *)
Definition q_shuffle (gp : GuildPlayer) : GuildPlayer :=
  set_queue (random_shuffle (queue gp)) gp.

(** [MusicPower.get_player]: the player and the dictionary after the call. *)
Definition get_player (gid : Z) (players : gmap Z GuildPlayer)
  : GuildPlayer * gmap Z GuildPlayer :=
  match players !! gid with
  | Some gp => (gp, players)
  | None => (new_player gid, <[gid := new_player gid]> players)
  end.

(** The head of [_apply_control]: action tag, payload and guild id. *)
Definition control_target (evt : json) : result (string * json * Z) :=
  a ← py_get evt "action";
  action ← py_lower (py_or a (JStr ""));
  p ← py_get evt "payload";
  let payload := py_or p (JDict []) in
  g ← py_get payload "guild_id";
  gid ← py_int (py_or g (JInt 0));
  Ok (action, payload, gid).

Definition transport_actions : list string :=
  ["pause"; "resume"; "skip"; "stop"; "shuffle"; "leave"; "clear"].

(** Every action tag a branch of [_apply_control] tests for. *)
Definition recognized_actions : list string :=
  transport_actions
  ++ ["loop"; "volume"; "play"; "playtop"; "queue_remove"; "queue_move"].

(** The four repeat modes named beside [loop_mode] in [GuildPlayer.__init__]
    and offered by [cmd_loop]. *)
Definition loop_modes : list string := ["off"; "track"; "queue"; "auto"].

(** A control record in the shape the panel writes:
    [{"action": a, "payload": {...fields}}]. *)
Definition control_record (a : string) (fields : list (string * json)) : json :=
  JDict [("action", JStr a); ("payload", JDict fields)].

(** The branches of [_apply_control] on the player [gp].  Each exception a
    branch can raise is raised before the branch changes the player. *)
Definition dispatch (action : string) (payload : json) (gp : GuildPlayer)
  : result GuildPlayer :=
  if bool_decide (action ∈ transport_actions) then
    if String.eqb action "pause" && voice_and vc_is_playing gp
    then Ok (on_voice vc_pause gp)
    else if String.eqb action "resume" && voice_and vc_is_paused gp
    then Ok (on_voice vc_resume gp)
    else if String.eqb action "skip" && present (voice gp)
    then Ok (on_voice vc_stop gp)
    else if String.eqb action "stop" && present (voice gp)
    then Ok (on_voice vc_stop (set_current None (set_queue [] gp)))
    else if String.eqb action "shuffle" then Ok (q_shuffle gp)
    else if String.eqb action "leave" then Ok (disconnect gp)
    else if String.eqb action "clear" then Ok (q_clear gp)
    else Ok gp
  else if String.eqb action "loop" then
    m ← py_get payload "mode";
    Ok (set_loop_mode (py_str (py_or m (JStr "off"))) gp)
  else if String.eqb action "volume" then
    let level :=
      match l ← py_get payload "level"; py_int (py_or l (JInt 100)) with
      | Ok n => n
      | Raise _ => 100
      end in
    Ok (set_volume level gp)
  else if bool_decide (action ∈ ["play"; "playtop"]) then
    q ← py_get payload "query";
    let query := str_strip (py_str (py_or q (JStr ""))) in
    if String.eqb query "" then Ok gp
    else
      items ← ytdl_search (if String.prefix "http" query then query
                           else "ytsearch:" ++ query);
      gp1 ← match items with
            | [] => Ok gp
            | t :: _ =>
                u ← py_get payload "user_id";
                uid ← py_int (py_or u (JInt 0));
                let t := mkTrack (title t) (url t) (webpage_url t) (duration t)
                                 uid (thumbnail t) (added_at t) in
                Ok (q_add t (String.eqb action "playtop") gp)
            end;
      Ok (start_player_loop gp1)
  else if String.eqb action "queue_remove" then
    i ← py_get payload "index";
    idx ← py_int (py_or i (JInt 0));
    '(_, gp1) ← q_remove idx gp;
    Ok gp1
  else if String.eqb action "queue_move" then
    s ← py_get payload "src";
    src ← py_int (py_or s (JInt 0));
    d ← py_get payload "dst";
    dst ← py_int (py_or d (JInt 0));
    '(_, gp1) ← q_move src dst gp;
    Ok gp1
  else Ok gp.

(** [MusicPower._apply_control]: the dictionary after the call and whether the
    call returned or raised.  The player is mutated in place, so the dictionary
    holds the player as [dispatch] left it. *)
Definition apply_control (evt : json) (players : gmap Z GuildPlayer)
  : gmap Z GuildPlayer * result unit :=
  match control_target evt with
  | Raise e => (players, Raise e)
  | Ok (action, payload, gid) =>
      if gid =? 0 then (players, Ok tt)
      else
        let '(gp, players1) := get_player gid players in
        match dispatch action payload gp with
        | Ok gp' => (<[gid := gp']> players1, Ok tt)
        | Raise e => (players1, Raise e)
        end
  end.

(** [bytes.splitlines()]: a line ends at ["\n"], ["\r"] or ["\r\n"]; the
    terminators are dropped, and data after the last terminator is a line of
    its own. *)
Definition is_lf (b : byte) : bool := Byte.eqb b x0a.
Definition is_cr (b : byte) : bool := Byte.eqb b x0d.

Fixpoint splitlines (data : list byte) : list (list byte) :=
  match data with
  | [] => []
  | b :: rest =>
      if is_lf b then [] :: splitlines rest
      else if is_cr b then
        match rest with
        | b' :: rest' => if is_lf b' then [] :: splitlines rest' else [] :: splitlines rest
        | [] => [[]]
        end
      else match splitlines rest with
           | [] => [[b]]
           | line :: lines => (b :: line) :: lines
           end
  end.

(** The start of [_control_loop]: the read position is the size of the file,
    or 0 when [stat] fails. *)
Definition control_attach (size : result nat) : nat :=
  match size with
  | Ok n => n
  | Raise _ => 0%nat
  end.

(** [f.seek(pos); raw = f.read(); pos = f.tell()] on a file holding [file]. *)
Definition control_read (pos : nat) (file : list byte) : list byte * nat :=
  let raw := drop pos file in
  (raw, (pos + length raw)%nat).

(** The body of the [for line in raw.splitlines()] loop: a line that does not
    decode, or whose command raises, is skipped. *)
Definition apply_line (players : gmap Z GuildPlayer) (line : list byte)
  : gmap Z GuildPlayer :=
  match json_loads line with
  | Ok evt => fst (apply_control evt players)
  | Raise _ => players
  end.

(** One poll tick of [_control_loop] on the file as it is at that tick
    ([Raise] when it cannot be opened). *)
Definition control_tick (st : nat * gmap Z GuildPlayer) (file : result (list byte))
  : nat * gmap Z GuildPlayer :=
  let '(pos, players) := st in
  match file with
  | Raise _ => (pos, players)
  | Ok data =>
      let '(raw, pos') := control_read pos data in
      match raw with
      | [] => (pos', players)
      | _ => (pos', foldl apply_line players (splitlines raw))
      end
  end.

(** The lines one tick hands to the decoder. *)
Definition tick_lines (pos : nat) (data : list byte) : list (list byte) :=
  splitlines (fst (control_read pos data)).

(** The [while True] loop of [_control_loop] over the file as successive ticks
    find it. *)
Definition control_loop (st : nat * gmap Z GuildPlayer) (files : list (result (list byte)))
  : nat * gmap Z GuildPlayer :=
  foldl control_tick st files.

(** An append-only log: the contents successive ticks find when the chunks
    [appends] are appended to [file], one before each tick. *)
Fixpoint observed (file : list byte) (appends : list (list byte)) : list (list byte) :=
  match appends with
  | [] => []
  | a :: rest => (file ++ a) :: observed (file ++ a) rest
  end.

(** A record holds no line break, and is written followed by ["\n"]. *)
Definition line_free (r : list byte) : bool :=
  forallb (fun b => negb (is_lf b || is_cr b)) r.

Definition record_lines (records : list (list byte)) : list byte :=
  concat (map (fun r => r ++ [x0a]) records).

(** [cmd_volume] and [cmd_loop], without the reply message.  Discord restricts
    [mode] to the four declared choices before [cmd_loop] runs. *)
Definition cmd_volume (gid level : Z) (players : gmap Z GuildPlayer)
  : gmap Z GuildPlayer :=
  let '(gp, players1) := get_player gid players in
  <[gid := set_volume level gp]> players1.

Definition cmd_loop (gid : Z) (mode : string) (players : gmap Z GuildPlayer)
  : gmap Z GuildPlayer :=
  let '(gp, players1) := get_player gid players in
  <[gid := set_loop_mode mode gp]> players1.

End Cog.

(** ** A reference runtime

    A concrete runtime for closed examples: ASCII strings, decimal integer
    literals, a decoder for objects, arrays, integers, escape-free strings and
    the three constants; yt-dlp finds nothing, and the shuffle reverses. *)

Definition lower_ascii (c : ascii) : ascii :=
  let n := nat_of_ascii c in
  if (65 <=? n)%nat && (n <=? 90)%nat then ascii_of_nat (n + 32) else c.

Definition ref_lower (s : string) : string :=
  string_of_list_ascii (map lower_ascii (list_ascii_of_string s)).

Definition is_blank (c : ascii) : bool :=
  let n := nat_of_ascii c in
  ((9 <=? n)%nat && (n <=? 13)%nat) || (n =? 32)%nat.

Fixpoint drop_blanks (s : list ascii) : list ascii :=
  match s with
  | c :: r => if is_blank c then drop_blanks r else s
  | [] => []
  end.

Definition ref_strip (s : string) : string :=
  string_of_list_ascii
    (rev (drop_blanks (rev (drop_blanks (list_ascii_of_string s))))).

Definition digit_of (c : ascii) : option Z :=
  let n := nat_of_ascii c in
  if (48 <=? n)%nat && (n <=? 57)%nat then Some (Z.of_nat (n - 48)) else None.

(** The digits at the front of [s], their value on top of [acc], and the rest. *)
Fixpoint read_digits (acc : Z) (s : list ascii) : Z * list ascii :=
  match s with
  | c :: r =>
      match digit_of c with
      | Some d => read_digits (10 * acc + d) r
      | None => (acc, s)
      end
  | [] => (acc, [])
  end.

(** An integer literal at the front of [s]: an optional minus, then digits. *)
Definition read_int (s : list ascii) : option (Z * list ascii) :=
  let '(neg, body) :=
    match s with
    | "-"%char :: r => (true, r)
    | _ => (false, s)
    end in
  match body with
  | c :: _ =>
      if present (digit_of c)
      then let '(n, r) := read_digits 0 body in Some (if neg then - n else n, r)
      else None
  | [] => None
  end.

Definition ref_int (s : string) : result Z :=
  match read_int (list_ascii_of_string (ref_strip s)) with
  | Some (n, []) => Ok n
  | _ => Raise ValueError
  end.

Definition dquote : ascii := ascii_of_nat 34.

(** The characters up to the closing quote, and what follows it. *)
Fixpoint read_string (s : list ascii) : option (list ascii * list ascii) :=
  match s with
  | [] => None
  | c :: r =>
      if Ascii.eqb c dquote then Some ([], r)
      else
        '(body, r') ← read_string r;
        Some (c :: body, r')
  end.

Definition after_prefix (p s : list ascii) : option (list ascii) :=
  if bool_decide (take (length p) s = p) then Some (drop (length p) s) else None.

Section Decoder.
Variable value : list ascii -> option (json * list ascii).

Fixpoint read_elements (fuel : nat) (s : list ascii) : option (list json * list ascii) :=
  match fuel with
  | O => None
  | S fuel' =>
      '(v, r) ← value s;
      match drop_blanks r with
      | ","%char :: r' =>
          '(vs, r'') ← read_elements fuel' r';
          Some (v :: vs, r'')
      | "]"%char :: r' => Some ([v], r')
      | _ => None
      end
  end.

Fixpoint read_members (fuel : nat) (s : list ascii)
  : option (list (string * json) * list ascii) :=
  match fuel with
  | O => None
  | S fuel' =>
      match drop_blanks s with
      | c :: r =>
          if Ascii.eqb c dquote then
            '(k, r1) ← read_string r;
            match drop_blanks r1 with
            | ":"%char :: r2 =>
                '(v, r3) ← value r2;
                match drop_blanks r3 with
                | ","%char :: r4 =>
                    '(kvs, r5) ← read_members fuel' r4;
                    Some ((string_of_list_ascii k, v) :: kvs, r5)
                | "}"%char :: r4 => Some ([(string_of_list_ascii k, v)], r4)
                | _ => None
                end
            | _ => None
            end
          else None
      | [] => None
      end
  end.

End Decoder.

(** A key given twice keeps its last value, as in a Python dictionary. *)
Fixpoint last_wins (kvs : list (string * json)) : list (string * json) :=
  match kvs with
  | [] => []
  | (k, v) :: rest =>
      if existsb (fun kv => String.eqb (fst kv) k) rest then last_wins rest
      else (k, v) :: last_wins rest
  end.

Fixpoint read_value (fuel : nat) (s : list ascii) : option (json * list ascii) :=
  match fuel with
  | O => None
  | S fuel' =>
      match drop_blanks s with
      | [] => None
      | c :: r =>
          if Ascii.eqb c dquote then
            '(body, r') ← read_string r;
            Some (JStr (string_of_list_ascii body), r')
          else if Ascii.eqb c "{" then
            match drop_blanks r with
            | "}"%char :: r' => Some (JDict [], r')
            | _ =>
                '(kvs, r') ← read_members (read_value fuel') (length s) r;
                Some (JDict (last_wins kvs), r')
            end
          else if Ascii.eqb c "[" then
            match drop_blanks r with
            | "]"%char :: r' => Some (JList [], r')
            | _ =>
                '(vs, r') ← read_elements (read_value fuel') (length s) r;
                Some (JList vs, r')
            end
          else match after_prefix (list_ascii_of_string "null") (c :: r),
                     after_prefix (list_ascii_of_string "true") (c :: r),
                     after_prefix (list_ascii_of_string "false") (c :: r) with
               | Some r', _, _ => Some (JNull, r')
               | _, Some r', _ => Some (JBool true, r')
               | _, _, Some r' => Some (JBool false, r')
               | _, _, _ =>
                   '(n, r') ← read_int (c :: r);
                   Some (JInt n, r')
               end
      end
  end.

Definition ref_json_loads (line : list byte) : result json :=
  let s := map ascii_of_byte line in
  match read_value (S (length s)) s with
  | Some (v, r) =>
      match drop_blanks r with
      | [] => Ok v
      | _ => Raise ValueError
      end
  | None => Raise ValueError
  end.

Definition ref_value_to_str (v : json) : string :=
  match v with
  | JNull => "None"
  | JBool true => "True"
  | JBool false => "False"
  | JInt n => pretty n
  | _ => "<object>"
  end.

Definition ref_runtime : Runtime :=
  {| str_lower := ref_lower;
     str_strip := ref_strip;
     str_to_int := ref_int;
     value_to_str := ref_value_to_str;
     json_loads := ref_json_loads;
     ytdl_search := fun _ => Ok [];
     extract_audio_url := fun _ => None;
     random_shuffle := @rev Track;
     random_shuffle_perm := fun l => Permutation_sym (Permutation_rev l) |}.

(** A track for closed examples. *)
Definition sample_track (name : string) : Track :=
  mkTrack name ("https://media.example/" ++ name) "" 180 0 None 0.

(** The bytes of an ASCII text. *)
Definition bytes_of (s : string) : list byte := list_byte_of_string s.

(** A control record written as the dashboard writes it, double quotes put in
    for the single ones. *)
Definition json_text (s : string) : list byte :=
  map (fun b => if Byte.eqb b x27 then x22 else b) (bytes_of s).

(** ** Further operations of the cog *)

(** [Track.display_title]: [title or webpage_url or url]. *)
Definition display_title (t : Track) : string :=
  if negb (String.eqb (title t) "") then title t
  else if negb (String.eqb (webpage_url t) "") then webpage_url t
  else url t.

(** An [Optional[str]] as a JSON value. *)
Definition json_of_option (o : option string) : json :=
  match o with
  | Some s => JStr s
  | None => JNull
  end.

(** [Track.brief] *)
Definition brief (t : Track) : json :=
  JDict [("title", JStr (display_title t));
         ("url", JStr (if negb (String.eqb (webpage_url t) "") then webpage_url t
                       else url t));
         ("duration", JInt (duration t));
         ("requester", JInt (requester_id t));
         ("thumb", json_of_option (thumbnail t))].

(** The slice [l[:n]]: a negative bound counts from the end. *)
Definition py_prefix {A : Type} (n : Z) (l : list A) : list A :=
  let k := if n <? 0 then Z.max 0 (n + py_len l) else Z.min n (py_len l) in
  take (Z.to_nat k) l.

(** The value [export_state] stores for one player; [limit] is
    [QUEUE_EXPORT_LIMIT] and [ts] is [int(time.time())]. *)
Definition export_entry (limit ts gid : Z) (gp : GuildPlayer) : json :=
  JDict [("guild_id", JInt gid);
         ("title", match current gp with
                   | Some cur => JStr (display_title cur)
                   | None => JNull
                   end);
         ("url", match current gp with
                 | Some cur => JStr (if negb (String.eqb (webpage_url cur) "")
                                     then webpage_url cur else url cur)
                 | None => JNull
                 end);
         ("duration", JInt match current gp with
                           | Some cur => duration cur
                           | None => 0
                           end);
         ("thumb", match current gp with
                   | Some cur => json_of_option (thumbnail cur)
                   | None => JNull
                   end);
         ("volume", JInt (volume gp));
         ("loop", JStr (loop_mode gp));
         ("queue_len", JInt (q_len gp));
         ("queue", JList (brief <$> py_prefix limit (queue gp)));
         ("ts", JInt ts)].

(** The loop [for gid, gp in players.items(): data[str(gid)] = ...] of
    [export_state] over a list of items. *)
Definition export_fold (limit ts : Z) (data : gmap string json)
    (items : list (Z * GuildPlayer)) : gmap string json :=
  foldl (fun data item => <[pretty (fst item) := export_entry limit ts (fst item) (snd item)]> data)
        data items.

(** The dictionary [data] that [export_state] builds and then writes out as
    JSON: one entry per player, under the key [str(gid)]. *)
Definition export_data (limit ts : Z) (players : gmap Z GuildPlayer)
  : gmap string json :=
  export_fold limit ts ∅ (map_to_list players).

(** The tracks a session holds: the current one, then the pending ones. *)
Definition held (gp : GuildPlayer) : list Track :=
  option_list (current gp) ++ queue gp.

(** A session as the cog keeps it: stored under its own guild id, with a
    volume inside [1, 200]. *)
Definition session_ok (gid : Z) (gp : GuildPlayer) : Prop :=
  guild_id gp = gid /\ 1 <= volume gp <= 200.

Definition sessions_ok (players : gmap Z GuildPlayer) : Prop :=
  forall gid gp, players !! gid = Some gp -> session_ok gid gp.


Section Commands.
Context {R : Runtime}.

(** The player a [LoopOutcome] carries. *)
Definition outcome_player (o : LoopOutcome) : GuildPlayer :=
  match o with
  | WaitReady gp | IdleSleep gp | AwaitCompletion gp | Completed gp | Backoff gp => gp
  end.

(** The slash commands below return the dictionary after the call and the
    text of the reply. *)

(** [cmd_leave] *)
Definition cmd_leave (gid : Z) (players : gmap Z GuildPlayer)
  : gmap Z GuildPlayer * string :=
  let '(gp, players1) := get_player gid players in
  (<[gid := disconnect gp]> players1, "👋 Отключился.").

(** [cmd_pause] *)
Definition cmd_pause (gid : Z) (players : gmap Z GuildPlayer)
  : gmap Z GuildPlayer * string :=
  let '(gp, players1) := get_player gid players in
  if voice_and vc_is_playing gp
  then (<[gid := on_voice vc_pause gp]> players1, "⏸ Пауза")
  else (players1, "Нечего ставить на паузу.").

(** [cmd_resume] *)
Definition cmd_resume (gid : Z) (players : gmap Z GuildPlayer)
  : gmap Z GuildPlayer * string :=
  let '(gp, players1) := get_player gid players in
  if voice_and vc_is_paused gp
  then (<[gid := on_voice vc_resume gp]> players1, "▶ Продолжил")
  else (players1, "Нечего продолжать.").

(** [cmd_skip] *)
Definition cmd_skip (gid : Z) (players : gmap Z GuildPlayer)
  : gmap Z GuildPlayer * string :=
  let '(gp, players1) := get_player gid players in
  if voice_and (fun v => vc_is_playing v || vc_is_paused v) gp
  then (<[gid := on_voice vc_stop gp]> players1, "⏭ Пропустил")
  else (players1, "Сейчас ничего не играет.").

(** [cmd_stop] *)
Definition cmd_stop (gid : Z) (players : gmap Z GuildPlayer)
  : gmap Z GuildPlayer * string :=
  let '(gp, players1) := get_player gid players in
  let gp := set_queue [] gp in
  let gp := set_current None gp in
  let gp := if present (voice gp) then on_voice vc_stop gp else gp in
  (<[gid := gp]> players1, "⏹ Остановлено, очередь очищена.").

(** [cmd_remove] *)
Definition cmd_remove (gid index : Z) (players : gmap Z GuildPlayer)
  : result (gmap Z GuildPlayer * string) :=
  let '(gp, players1) := get_player gid players in
  '(tr, gp1) ← q_remove index gp;
  match tr with
  | Some t => Ok (<[gid := gp1]> players1, "🗑 Удалён: **" +:+ display_title t +:+ "**")
  | None => Ok (<[gid := gp1]> players1, "Неверный номер.")
  end.

(** [cmd_move] *)
Definition cmd_move (gid src dst : Z) (players : gmap Z GuildPlayer)
  : result (gmap Z GuildPlayer * string) :=
  let '(gp, players1) := get_player gid players in
  '(ok, gp1) ← q_move src dst gp;
  Ok (<[gid := gp1]> players1,
      if ok : bool then "✅ Перемещено." else "❌ Неверные позиции.").

(** [cmd_clear] *)
Definition cmd_clear (gid : Z) (players : gmap Z GuildPlayer)
  : gmap Z GuildPlayer * string :=
  let '(gp, players1) := get_player gid players in
  (<[gid := q_clear gp]> players1, "🧹 Очередь очищена.").

(** [cmd_shuffle] *)
Definition cmd_shuffle (gid : Z) (players : gmap Z GuildPlayer)
  : gmap Z GuildPlayer * string :=
  let '(gp, players1) := get_player gid players in
  (<[gid := q_shuffle gp]> players1, "🔀 Перемешал очередь.").

(** [s[:n]] on a string counts characters, not bytes; it is left to the
    caller of the autocomplete models. *)
Variable str_prefix : Z -> string -> string.






End Commands.

(** A second runtime for closed examples: as [ref_runtime], but yt-dlp finds
    two tracks for every query and a stream for every url. *)
Definition found_runtime : Runtime :=
  {| str_lower := ref_lower;
     str_strip := ref_strip;
     str_to_int := ref_int;
     value_to_str := ref_value_to_str;
     json_loads := ref_json_loads;
     ytdl_search := fun q => Ok [sample_track q; sample_track "second"];
     extract_audio_url := fun q => Some ("stream:" +:+ q);
     random_shuffle := @rev Track;
     random_shuffle_perm := fun l => Permutation_sym (Permutation_rev l) |}.


(** * Properties *)

(** ** Python list primitives *)

Section ListFacts.
Context {A : Type}.
Implicit Types (l : list A) (x : A).

Lemma py_pop_in_range l i :
  0 <= i < py_len l ->
  exists x, l !! Z.to_nat i = Some x /\ py_pop i l = Ok (x, delete (Z.to_nat i) l).
Proof.
  unfold py_len. intros Hi.
  destruct (lookup_lt_is_Some_2 l (Z.to_nat i)) as [x Hx]; [lia|].
  exists x. split; [done|]. unfold py_pop, py_len.
  destruct (Z.ltb_spec i 0); [lia|].
  destruct (Z.ltb_spec i 0); [lia|].
  destruct (Z.leb_spec (Z.of_nat (length l)) i); [lia|].
  simpl. by rewrite Hx.
Qed.

Lemma py_insert_in_range l j x :
  0 <= j <= py_len l ->
  py_insert j x l = take (Z.to_nat j) l ++ x :: drop (Z.to_nat j) l.
Proof.
  unfold py_insert, py_len. intros Hj.
  destruct (Z.ltb_spec j 0); [lia|].
  by rewrite Z.min_l by lia.
Qed.

Lemma insert_at_perm l (k : nat) x :
  Permutation (take k l ++ x :: drop k l) (x :: l).
Proof.
  symmetry. rewrite <- (take_drop k l) at 1. apply Permutation_middle.
Qed.

Lemma insert_at_lookup l (k : nat) x :
  (k <= length l)%nat -> (take k l ++ x :: drop k l) !! k = Some x.
Proof.
  intros Hk. apply list_lookup_middle. rewrite length_take. lia.
Qed.

Lemma insert_at_delete l (k : nat) x :
  (k <= length l)%nat -> delete k (take k l ++ x :: drop k l) = l.
Proof.
  intros Hk. rewrite delete_take_drop.
  rewrite take_app_length' by (rewrite length_take; lia).
  rewrite cons_middle, app_assoc.
  rewrite drop_app_length' by (rewrite length_app, length_take; simpl; lia).
  apply take_drop.
Qed.

Lemma delete_reinsert l (k : nat) x :
  l !! k = Some x -> take k (delete k l) ++ x :: drop k (delete k l) = l.
Proof.
  intros Hx. pose proof (lookup_lt_Some _ _ _ Hx) as Hlt.
  rewrite delete_take_drop.
  rewrite take_app_length' by (rewrite length_take; lia).
  rewrite drop_app_length' by (rewrite length_take; lia).
  by apply take_drop_middle.
Qed.

End ListFacts.

(** ** The queue: [q_move] and [q_remove] *)

Section QueueFacts.
Implicit Types (gp : GuildPlayer) (q : list Track).

Lemma q_move_rejects gp src dst :
  ~ (1 <= src <= q_len gp /\ 1 <= dst <= q_len gp) ->
  q_move src dst gp = Ok (false, gp).
Proof.
  unfold q_move, q_len. intros Hout.
  destruct (Z.ltb_spec (src - 1) 0); [done|].
  destruct (Z.ltb_spec (dst - 1) 0); [done|].
  destruct (Z.leb_spec (py_len (queue gp)) (src - 1)); [done|].
  destruct (Z.leb_spec (py_len (queue gp)) (dst - 1)); [done|].
  exfalso. apply Hout. lia.
Qed.

Lemma q_move_accepts gp src dst :
  1 <= src <= q_len gp -> 1 <= dst <= q_len gp ->
  exists item,
    queue gp !! Z.to_nat (src - 1) = Some item /\
    q_move src dst gp =
      Ok (true, set_queue (take (Z.to_nat (dst - 1)) (delete (Z.to_nat (src - 1)) (queue gp))
                           ++ item :: drop (Z.to_nat (dst - 1))
                                            (delete (Z.to_nat (src - 1)) (queue gp))) gp).
Proof.
  unfold q_move, q_len. intros Hs Hd.
  destruct (Z.ltb_spec (src - 1) 0); [lia|].
  destruct (Z.ltb_spec (dst - 1) 0); [lia|].
  destruct (Z.leb_spec (py_len (queue gp)) (src - 1)); [lia|].
  destruct (Z.leb_spec (py_len (queue gp)) (dst - 1)); [lia|].
  simpl.
  destruct (py_pop_in_range (queue gp) (src - 1)) as (item & Hitem & ->); [lia|].
  exists item. split; [done|]. simpl.
  rewrite py_insert_in_range; [done|].
  pose proof (lookup_lt_Some _ _ _ Hitem) as Hlt.
  unfold py_len in *. rewrite length_delete by eauto. lia.
Qed.

(** C3. [q_move src dst] with both 1-based indices inside the queue returns
    [True], changes only the queue, keeps its multiset of items, puts the
    moved item at position [dst] and leaves the other items in their order
    (so [src = dst] changes nothing); with an index outside the queue it
    returns [False] and changes nothing; on [A, B, C], [q_move 3 1] gives
    [C, A, B]. *)
Theorem q_move_spec gp src dst :
  (1 <= src <= q_len gp -> 1 <= dst <= q_len gp ->
   exists item q',
     q_move src dst gp = Ok (true, set_queue q' gp) /\
     queue gp !! Z.to_nat (src - 1) = Some item /\
     q' !! Z.to_nat (dst - 1) = Some item /\
     delete (Z.to_nat (dst - 1)) q' = delete (Z.to_nat (src - 1)) (queue gp) /\
     Permutation q' (queue gp) /\
     (src = dst -> q' = queue gp)) /\
  (~ (1 <= src <= q_len gp /\ 1 <= dst <= q_len gp) ->
   q_move src dst gp = Ok (false, gp)) /\
  (forall a b c, queue gp = [a; b; c] ->
   q_move 3 1 gp = Ok (true, set_queue [c; a; b] gp)).
Proof.
  split; [|split].
  - intros Hs Hd.
    destruct (q_move_accepts gp src dst Hs Hd) as (item & Hitem & Hmove).
    pose proof (lookup_lt_Some _ _ _ Hitem) as Hlt.
    assert (Hlen : (Z.to_nat (dst - 1) <= length (delete (Z.to_nat (src - 1)) (queue gp)))%nat).
    { rewrite length_delete by eauto. unfold q_len, py_len in *. lia. }
    eexists item, _. split; [exact Hmove|]. split; [done|].
    split; [by apply insert_at_lookup|].
    split; [by apply insert_at_delete|].
    split.
    + rewrite insert_at_perm. symmetry. by apply delete_Permutation.
    + intros <-. by apply delete_reinsert.
  - apply q_move_rejects.
  - intros a b c Hq. unfold q_move. rewrite Hq. reflexivity.
Qed.

Lemma q_move_spec_witness :
  let gp := set_queue [mkTrack "A" "a" "a" 1 0 None 0;
                       mkTrack "B" "b" "b" 2 0 None 0;
                       mkTrack "C" "c" "c" 3 0 None 0] (new_player 7) in
  (exists item q',
     q_move 3 1 gp = Ok (true, set_queue q' gp) /\
     queue gp !! Z.to_nat (3 - 1) = Some item /\
     q' !! Z.to_nat (1 - 1) = Some item /\
     delete (Z.to_nat (1 - 1)) q' = delete (Z.to_nat (3 - 1)) (queue gp) /\
     Permutation q' (queue gp) /\
     (3 = 1 -> q' = queue gp)) /\
  q_move 4 1 gp = Ok (false, gp) /\
  q_move 1 0 gp = Ok (false, gp).
Proof.
  intros gp. split; [|split].
  - apply (proj1 (q_move_spec gp 3 1)); vm_compute; split; discriminate.
  - apply (proj1 (proj2 (q_move_spec gp 4 1))). vm_compute. intros [[_ H] _]. by apply H.
  - apply (proj1 (proj2 (q_move_spec gp 1 0))). vm_compute. intros [_ [H _]]. by apply H.
Defined.

Lemma q_remove_out_of_range gp index :
  index < 1 \/ q_len gp < index -> q_remove index gp = Ok (None, gp).
Proof.
  unfold q_remove, q_len. intros Hout.
  destruct (Z.leb_spec 0 (index - 1)); [|done].
  destruct (Z.ltb_spec (index - 1) (py_len (queue gp))); [lia|done].
Qed.

Lemma q_remove_in_range gp index :
  1 <= index <= q_len gp ->
  exists item,
    queue gp !! Z.to_nat (index - 1) = Some item /\
    q_remove index gp =
      Ok (Some item, set_queue (delete (Z.to_nat (index - 1)) (queue gp)) gp).
Proof.
  unfold q_remove, q_len. intros Hin.
  destruct (Z.leb_spec 0 (index - 1)); [|lia].
  destruct (Z.ltb_spec (index - 1) (py_len (queue gp))); [|lia].
  destruct (py_pop_in_range (queue gp) (index - 1)) as (item & Hitem & ->); [lia|].
  by exists item.
Qed.

End QueueFacts.

(** ** Setters and the fields they leave alone *)

Lemma set_queue_same gp : set_queue (queue gp) gp = gp.
Proof. by destruct gp. Qed.

Lemma set_current_same gp : set_current (current gp) gp = gp.
Proof. by destruct gp. Qed.

(** ** Control dispatch *)

Section ControlFacts.
Context {R : Runtime}.
Implicit Types (gp : GuildPlayer) (players : gmap Z GuildPlayer) (evt payload : json).

#[local] Arguments py_or : simpl never.

Lemma py_or_str_default s : py_or (JStr s) (JStr "") = JStr s.
Proof.
  unfold py_or. simpl. destruct (String.eqb_spec s ""); simpl; congruence.
Qed.

Lemma py_or_dict_default d : py_or (JDict d) (JDict []) = JDict d.
Proof. by destruct d. Qed.

Lemma py_or_int_nonzero n d : n <> 0 -> py_or (JInt n) d = JInt n.
Proof.
  intros Hn. unfold py_or. simpl. by destruct (Z.eqb_spec n 0).
Qed.

(** The head of [_apply_control] on a well-shaped record: the tag is
    lower-cased and the guild id is read from the payload key [guild_id]. *)
Lemma control_target_record a fields :
  control_target (control_record a fields) =
    (gid ← py_int (py_or (dict_get "guild_id" fields) (JInt 0));
     Ok (str_lower a, JDict fields, gid)).
Proof.
  unfold control_target, control_record. simpl.
  change (dict_get "action" _) with (JStr a).
  change (dict_get "payload" _) with (JDict fields).
  rewrite py_or_str_default, py_or_dict_default. reflexivity.
Qed.

Lemma control_target_guild a fields gid :
  dict_get "guild_id" fields = JInt gid ->
  control_target (control_record a fields) = Ok (str_lower a, JDict fields, gid).
Proof.
  intros Hg. rewrite control_target_record, Hg.
  destruct (Z.eq_dec gid 0) as [->|Hne]; [done|].
  by rewrite py_or_int_nonzero.
Qed.

Lemma control_target_no_guild a fields :
  truthy (dict_get "guild_id" fields) = false ->
  control_target (control_record a fields) = Ok (str_lower a, JDict fields, 0).
Proof.
  intros Hg. rewrite control_target_record. unfold py_or. by rewrite Hg.
Qed.

Lemma get_player_lookup gid players :
  (get_player gid players).2 !! gid = Some (get_player gid players).1.
Proof.
  unfold get_player. destruct (players !! gid) eqn:Hp; simpl; [done|].
  apply lookup_insert_eq.
Qed.

Lemma get_player_frame gid gid' players :
  gid <> gid' -> (get_player gid players).2 !! gid' = players !! gid'.
Proof.
  intros Hne. unfold get_player. destruct (players !! gid); simpl; [done|].
  by apply lookup_insert_ne.
Qed.

Lemma get_player_keeps gid gid' gp players :
  players !! gid' = Some gp -> (get_player gid players).2 !! gid' = Some gp.
Proof.
  intros Hp. destruct (decide (gid = gid')) as [->|Hne].
  - unfold get_player. by rewrite Hp.
  - by rewrite get_player_frame.
Qed.

(** What [_apply_control] leaves in the dictionary, by the three ways the
    call can go. *)
Lemma apply_control_unfold evt players :
  fst (apply_control evt players) =
    match control_target evt with
    | Raise _ => players
    | Ok (action, payload, gid) =>
        if gid =? 0 then players
        else match dispatch action payload (get_player gid players).1 with
             | Ok gp' => <[gid := gp']> (get_player gid players).2
             | Raise _ => (get_player gid players).2
             end
    end.
Proof.
  unfold apply_control. destruct (control_target evt) as [[[a p] g]|e]; [|done].
  destruct (g =? 0); [done|].
  destruct (get_player g players) as [gp ps1]. simpl.
  by destruct (dispatch a p gp).
Qed.

Lemma apply_control_dropped evt players :
  (forall a p g, control_target evt = Ok (a, p, g) -> g = 0) ->
  apply_control evt players = (players, control_target evt ≫= fun _ => Ok tt).
Proof.
  intros Hnone. unfold apply_control.
  destruct (control_target evt) as [[[a p] g]|e]; [|done].
  by rewrite (Hnone a p g eq_refl).
Qed.

Lemma apply_control_present evt players a p g :
  control_target evt = Ok (a, p, g) -> g <> 0 ->
  exists gp',
    fst (apply_control evt players) !! g = Some gp' /\
    (dispatch a p (get_player g players).1 = Ok gp' \/
     (exists e, dispatch a p (get_player g players).1 = Raise e) /\
     gp' = (get_player g players).1).
Proof.
  intros Ht Hg. rewrite apply_control_unfold, Ht.
  destruct (Z.eqb_spec g 0); [done|].
  destruct (dispatch a p (get_player g players).1) as [gp'|e] eqn:Hd.
  - exists gp'. split; [apply lookup_insert_eq|by left].
  - exists (get_player g players).1. split; [apply get_player_lookup|].
    right. eauto.
Qed.

Lemma apply_control_frame evt players a p g g' :
  control_target evt = Ok (a, p, g) -> g' <> g ->
  fst (apply_control evt players) !! g' = players !! g'.
Proof.
  intros Ht Hne. rewrite apply_control_unfold, Ht.
  destruct (Z.eqb_spec g 0); [done|].
  destruct (dispatch a p (get_player g players).1).
  - rewrite lookup_insert_ne by done. by apply get_player_frame.
  - by apply get_player_frame.
Qed.

Lemma dispatch_unrecognized a p gp :
  a ∉ recognized_actions -> dispatch a p gp = Ok gp.
Proof.
  intros Hn.
  assert (Hne : forall s, s ∈ recognized_actions -> String.eqb a s = false).
  { intros s Hs. destruct (String.eqb_spec a s) as [->|]; done. }
  unfold dispatch.
  rewrite bool_decide_eq_false_2
    by (intros Hin; apply Hn, elem_of_app; by left).
  rewrite !Hne by compute_done.
  rewrite bool_decide_eq_false_2; [done|].
  intros Hin. apply Hn, elem_of_app. right.
  apply list_elem_of_In. apply list_elem_of_In in Hin. simpl in *. tauto.
Qed.

(** The branch [dispatch] takes for some of the tags. *)
Lemma dispatch_clear p gp : dispatch "clear" p gp = Ok (q_clear gp).
Proof. reflexivity. Qed.

Lemma dispatch_leave p gp : dispatch "leave" p gp = Ok (disconnect gp).
Proof. reflexivity. Qed.

Lemma dispatch_loop p gp :
  dispatch "loop" p gp =
    (m ← py_get p "mode"; Ok (set_loop_mode (py_str (py_or m (JStr "off"))) gp)).
Proof. reflexivity. Qed.

Lemma dispatch_volume p gp :
  dispatch "volume" p gp =
    Ok (set_volume
          match l ← py_get p "level"; py_int (py_or l (JInt 100)) with
          | Ok n => n
          | Raise _ => 100
          end gp).
Proof. reflexivity. Qed.

Lemma dispatch_queue_remove p gp :
  dispatch "queue_remove" p gp =
    (i ← py_get p "index";
     idx ← py_int (py_or i (JInt 0));
     '(_, gp1) ← q_remove idx gp;
     Ok gp1).
Proof. reflexivity. Qed.

(** A record for a guild that has a player: the player is handed to
    [dispatch] and put back as [dispatch] left it. *)
Lemma apply_control_on_player a fields g gp players :
  dict_get "guild_id" fields = JInt g -> g <> 0 ->
  players !! g = Some gp ->
  apply_control (control_record a fields) players =
    match dispatch (str_lower a) (JDict fields) gp with
    | Ok gp' => (<[g := gp']> players, Ok tt)
    | Raise e => (players, Raise e)
    end.
Proof.
  intros Hg Hne Hp. unfold apply_control.
  rewrite (control_target_guild a fields g Hg).
  destruct (Z.eqb_spec g 0); [done|].
  unfold get_player. by rewrite Hp.
Qed.

(** A record for a guild without a player: [get_player] makes one first. *)
Lemma apply_control_new_player a fields g players :
  dict_get "guild_id" fields = JInt g -> g <> 0 ->
  players !! g = None ->
  apply_control (control_record a fields) players =
    match dispatch (str_lower a) (JDict fields) (new_player g) with
    | Ok gp' => (<[g := gp']> players, Ok tt)
    | Raise e => (<[g := new_player g]> players, Raise e)
    end.
Proof.
  intros Hg Hne Hp. unfold apply_control.
  rewrite (control_target_guild a fields g Hg).
  destruct (Z.eqb_spec g 0); [done|].
  unfold get_player. rewrite Hp.
  destruct (dispatch _ _ _); [|done].
  by rewrite insert_insert_eq.
Qed.

(** C9. [q_remove] with a 1-based index outside the queue returns the
    not-found result and leaves the player, queue included, as it was; with
    an index inside the queue it returns the item at that position and takes
    exactly that item out.  A [queue_remove] record with index 99 for a
    session whose queue holds two items changes nothing. *)
Theorem q_remove_spec gp index :
  (index < 1 \/ q_len gp < index -> q_remove index gp = Ok (None, gp)) /\
  (1 <= index <= q_len gp ->
   exists item,
     queue gp !! Z.to_nat (index - 1) = Some item /\
     q_remove index gp =
       Ok (Some item, set_queue (delete (Z.to_nat (index - 1)) (queue gp)) gp)) /\
  (forall a fields g players,
     str_lower a = "queue_remove" ->
     dict_get "guild_id" fields = JInt g -> g <> 0 ->
     dict_get "index" fields = JInt 99 ->
     players !! g = Some gp -> q_len gp = 2 ->
     apply_control (control_record a fields) players = (players, Ok tt)).
Proof.
  split; [apply q_remove_out_of_range|].
  split; [apply q_remove_in_range|].
  intros a fields g players Ha Hg Hne Hi Hp Hlen.
  rewrite (apply_control_on_player a fields g gp players Hg Hne Hp).
  rewrite Ha, dispatch_queue_remove. simpl. rewrite Hi.
  rewrite py_or_int_nonzero by done. simpl.
  rewrite q_remove_out_of_range by lia. simpl.
  by rewrite insert_id.
Qed.

(** C5, as the code has it.  A record whose head resolves to a nonzero guild
    id is dispatched to that guild's player: afterwards the dictionary holds,
    under that id, the player as [dispatch] left it (the player [get_player]
    found or made, when the branch raised), and every other entry is as
    before.  The id is read from the payload key [guild_id] only; a record
    whose head raises or yields 0 changes nothing, and that is what happens
    to a record without a truthy [guild_id], whatever else (a [session_id],
    say) its payload holds. *)
Theorem control_dispatch_by_guild_id evt players :
  (forall a p g, control_target evt = Ok (a, p, g) -> g <> 0 ->
     (exists gp',
        fst (apply_control evt players) !! g = Some gp' /\
        (dispatch a p (get_player g players).1 = Ok gp' \/
         (exists e, dispatch a p (get_player g players).1 = Raise e) /\
         gp' = (get_player g players).1)) /\
     (forall g', g' <> g -> fst (apply_control evt players) !! g' = players !! g')) /\
  ((forall a p g, control_target evt = Ok (a, p, g) -> g = 0) ->
     fst (apply_control evt players) = players) /\
  (forall a fields g, evt = control_record a fields ->
     dict_get "guild_id" fields = JInt g ->
     control_target evt = Ok (str_lower a, JDict fields, g)) /\
  (forall a fields, evt = control_record a fields ->
     truthy (dict_get "guild_id" fields) = false ->
     apply_control evt players = (players, Ok tt)).
Proof.
  split; [|split; [|split]].
  - intros a p g Ht Hg. split.
    + by apply apply_control_present.
    + intros g' Hne. by apply (apply_control_frame evt players a p g g').
  - intros Hnone. by rewrite apply_control_dropped.
  - intros a fields g -> Hg. by apply control_target_guild.
  - intros a fields -> Hg. unfold apply_control.
    by rewrite control_target_no_guild.
Qed.

(** C10. A record whose head resolves to a nonzero guild id leaves a player
    for that guild in the dictionary, whatever its action tag.  When the tag
    is none of those [_apply_control] tests for, that is all the call does:
    it returns normally, a guild that had no player gets a fresh one, and
    every player that was in the dictionary is still there unchanged. *)
Theorem control_record_creates_player evt players a p g :
  control_target evt = Ok (a, p, g) -> g <> 0 ->
  is_Some (fst (apply_control evt players) !! g) /\
  (a ∉ recognized_actions ->
     apply_control evt players = ((get_player g players).2, Ok tt) /\
     (players !! g = None ->
        fst (apply_control evt players) = <[g := new_player g]> players) /\
     (forall g' gp, players !! g' = Some gp ->
        fst (apply_control evt players) !! g' = Some gp)).
Proof.
  intros Ht Hg. split.
  - destruct (apply_control_present evt players a p g Ht Hg) as (gp' & -> & _).
    by eexists.
  - intros Hun.
    assert (Heq : apply_control evt players = ((get_player g players).2, Ok tt)).
    { unfold apply_control. rewrite Ht.
      destruct (Z.eqb_spec g 0); [done|].
      pose proof (get_player_lookup g players) as Hl.
      destruct (get_player g players) as [gp ps1]. simpl in *.
      rewrite dispatch_unrecognized by done.
      by rewrite insert_id. }
    rewrite Heq. simpl. split; [done|]. split.
    + intros Hp. unfold get_player. by rewrite Hp.
    + intros g' gp Hp. by apply get_player_keeps.
Qed.

End ControlFacts.

(** ** Sessions: volume, teardown, and the scheduler loop *)

Section SessionFacts.
Context {R : Runtime}.
Implicit Types (gp : GuildPlayer) (players : gmap Z GuildPlayer).

Lemma set_volume_stored vol gp :
  volume (set_volume vol gp) = Z.max 1 (Z.min 200 vol).
Proof.
  unfold set_volume. by destruct (voice_and _ _).
Qed.

Lemma set_volume_bounds vol gp : 1 <= volume (set_volume vol gp) <= 200.
Proof. rewrite set_volume_stored. lia. Qed.

(** A playing source follows the stored volume. *)
Lemma set_volume_live vol gp v s :
  voice gp = Some v -> vc_source v = Some s ->
  exists v' s',
    voice (set_volume vol gp) = Some v' /\ vc_source v' = Some s' /\
    src_volume s' = Z.max 1 (Z.min 200 vol).
Proof.
  intros Hv Hs. unfold set_volume, voice_and, on_voice. simpl. rewrite Hv, Hs.
  simpl. unfold vc_set_source_volume. rewrite Hs. by eexists _, _.
Qed.

Lemma cmd_volume_stored g level players :
  volume <$> cmd_volume g level players !! g = Some (Z.max 1 (Z.min 200 level)).
Proof.
  unfold cmd_volume. destruct (get_player g players) as [gp ps1].
  by rewrite lookup_insert_eq, <- (set_volume_stored level gp).
Qed.

(** A [volume] record with a nonzero integer level stores that level,
    clamped. *)
Lemma control_volume_nonzero a fields g level players :
  str_lower a = "volume" ->
  dict_get "guild_id" fields = JInt g -> g <> 0 ->
  dict_get "level" fields = JInt level -> level <> 0 ->
  volume <$> fst (apply_control (control_record a fields) players) !! g
    = Some (Z.max 1 (Z.min 200 level)).
Proof.
  intros Ha Hg Hne Hl Hl0.
  rewrite apply_control_unfold, (control_target_guild a fields g Hg).
  destruct (Z.eqb_spec g 0); [done|].
  rewrite Ha, dispatch_volume, lookup_insert_eq. simpl.
  rewrite Hl, py_or_int_nonzero by done. simpl.
  by rewrite set_volume_stored.
Qed.

(** C4, where the code departs from it.  A [volume] record whose level is the
    integer 0 stores 100 for the session, while [cmd_volume] with level 0
    stores 1, the level clamped into [1, 200]. *)
Theorem control_volume_level_zero a fields g players :
  str_lower a = "volume" ->
  dict_get "guild_id" fields = JInt g -> g <> 0 ->
  dict_get "level" fields = JInt 0 ->
  volume <$> fst (apply_control (control_record a fields) players) !! g = Some 100 /\
  volume <$> cmd_volume g 0 players !! g = Some 1.
Proof.
  intros Ha Hg Hne Hl. split.
  - rewrite apply_control_unfold, (control_target_guild a fields g Hg).
    destruct (Z.eqb_spec g 0); [done|].
    rewrite Ha, dispatch_volume, lookup_insert_eq. simpl.
    rewrite Hl. simpl. by rewrite set_volume_stored.
  - by rewrite cmd_volume_stored.
Qed.

(** C8, where the code departs from it.  A [loop] record stores whatever
    non-empty string its [mode] field holds as the session's repeat mode,
    one of the four modes or not. *)
Theorem control_loop_stores_any_mode a fields g mode players :
  str_lower a = "loop" ->
  dict_get "guild_id" fields = JInt g -> g <> 0 ->
  dict_get "mode" fields = JStr mode -> mode <> "" ->
  loop_mode <$> fst (apply_control (control_record a fields) players) !! g
    = Some mode.
Proof.
  intros Ha Hg Hne Hm Hm0.
  rewrite apply_control_unfold, (control_target_guild a fields g Hg).
  destruct (Z.eqb_spec g 0); [done|].
  rewrite Ha, dispatch_loop. simpl. rewrite Hm, lookup_insert_eq. simpl.
  unfold py_or. simpl. by destruct (String.eqb_spec mode "").
Qed.

(** [cmd_loop] stores the mode it is given; Discord offers it the four
    declared choices only. *)
Lemma cmd_loop_stored g mode players :
  loop_mode <$> cmd_loop g mode players !! g = Some mode.
Proof.
  unfold cmd_loop. destruct (get_player g players) as [gp ps1].
  by rewrite lookup_insert_eq.
Qed.

(** *** Teardown *)

Lemma disconnect_state gp :
  disconnect gp =
    mkPlayer (guild_id gp) [] (volume gp) (loop_mode gp) None None true
             (play_task gp) false.
Proof.
  unfold disconnect. by destruct (voice_and _ _).
Qed.

(** C6, as the code has it.  [disconnect] empties the queue and the current
    slot, sets the completion signal, drops the voice client and clears the
    ready flag; the loop task is not cancelled but kept as it was, and its
    next pass parks on the ready flag.  Guild id, volume and repeat mode
    stay.  A second [disconnect] changes nothing, and a [leave] record runs
    [disconnect] on the player of its guild. *)
Theorem disconnect_teardown gp :
  queue (disconnect gp) = [] /\
  current (disconnect gp) = None /\
  voice (disconnect gp) = None /\
  vc_ready (disconnect gp) = false /\
  next_event (disconnect gp) = true /\
  play_task (disconnect gp) = play_task gp /\
  (guild_id (disconnect gp), volume (disconnect gp), loop_mode (disconnect gp))
    = (guild_id gp, volume gp, loop_mode gp) /\
  disconnect (disconnect gp) = disconnect gp /\
  player_iteration (disconnect gp) = WaitReady (disconnect gp) /\
  (forall a fields g players,
     str_lower a = "leave" ->
     dict_get "guild_id" fields = JInt g -> g <> 0 ->
     players !! g = Some gp ->
     apply_control (control_record a fields) players
       = (<[g := disconnect gp]> players, Ok tt)).
Proof.
  rewrite !disconnect_state. simpl.
  repeat (split; [reflexivity|]).
  intros a fields g players Ha Hg Hne Hp.
  rewrite (apply_control_on_player a fields g gp players Hg Hne Hp).
  by rewrite Ha, dispatch_leave, disconnect_state.
Qed.

(** *** Repeat policy *)

Lemma post_completion_track gp t :
  current gp = Some t -> loop_mode gp = "track" -> post_completion gp = gp.
Proof.
  intros Hc Hm. unfold post_completion. by rewrite Hm, Hc.
Qed.

Lemma post_completion_track_iter gp t n :
  current gp = Some t -> loop_mode gp = "track" ->
  Nat.iter n post_completion gp = gp.
Proof.
  intros Hc Hm. induction n as [|n IH]; simpl; [done|].
  rewrite IH. by apply (post_completion_track gp t).
Qed.

Lemma post_completion_queue gp t :
  current gp = Some t -> loop_mode gp = "queue" ->
  post_completion gp = set_current None (set_queue (queue gp ++ [t]) gp).
Proof.
  intros Hc Hm. unfold post_completion. by rewrite Hm, Hc.
Qed.

Lemma post_completion_discard gp :
  loop_mode gp <> "track" -> loop_mode gp <> "queue" ->
  post_completion gp = set_current None gp.
Proof.
  intros Ht Hq. unfold post_completion.
  destruct (String.eqb_spec (loop_mode gp) "track"); [done|].
  by destruct (String.eqb_spec (loop_mode gp) "queue").
Qed.

(** C1. A loop waiting for the completion signal goes on to the repeat-mode
    dispatch as soon as the signal is set.  When the dispatch runs with a track
    in the current slot: in mode [track] the player is left exactly as it was, however many
    completions follow one another; in mode [queue] the track is appended at
    the tail of the queue, which grows by one, and the slot is emptied; in
    mode [off] or [auto] the slot is emptied and the queue is as it was.
    Nothing else of the player changes. *)
Theorem post_completion_repeat_policy gp t :
  current gp = Some t ->
  await_completion (completion_signal gp)
    = Completed (post_completion (completion_signal gp)) /\
  (loop_mode gp = "track" ->
     post_completion gp = gp /\
     forall n, Nat.iter n post_completion gp = gp) /\
  (loop_mode gp = "queue" ->
     post_completion gp = set_current None (set_queue (queue gp ++ [t]) gp) /\
     queue (post_completion gp) = queue gp ++ [t] /\
     length (queue (post_completion gp)) = S (length (queue gp)) /\
     current (post_completion gp) = None) /\
  (loop_mode gp = "off" \/ loop_mode gp = "auto" ->
     post_completion gp = set_current None gp /\
     queue (post_completion gp) = queue gp /\
     current (post_completion gp) = None).
Proof.
  intros Hc. split; [done|]. split; [|split].
  - intros Hm. split; [by apply (post_completion_track gp t)|].
    intros n. by apply (post_completion_track_iter gp t).
  - intros Hm. rewrite (post_completion_queue gp t Hc Hm). simpl.
    repeat split. rewrite length_app. simpl. lia.
  - intros Hm. rewrite post_completion_discard; [done| |].
    + by destruct Hm as [-> | ->].
    + by destruct Hm as [-> | ->].
Qed.

(** *** Extraction failure *)

Lemma set_next_event_twice b b' gp :
  set_next_event b (set_next_event b' gp) = set_next_event b gp.
Proof. reflexivity. Qed.

(** [_play_current_track] on a track whose stream url cannot be extracted
    sets the completion signal, touches nothing else and raises nothing. *)
Lemma play_current_track_no_stream gp v t :
  voice gp = Some v -> current gp = Some t ->
  (let query := if String.eqb (url t) "" then webpage_url t else url t in
   extract_audio_url query = None \/ extract_audio_url query = Some "") ->
  play_current_track gp = Ok (set_next_event true gp).
Proof.
  intros Hv Hc Hx. unfold play_current_track. rewrite Hv, Hc.
  by destruct Hx as [-> | ->].
Qed.

Lemma post_completion_clears gp :
  loop_mode gp <> "track" -> current (post_completion gp) = None.
Proof.
  intros Hm. unfold post_completion.
  destruct (String.eqb_spec (loop_mode gp) "track"); [done|]. simpl.
  by destruct (_ && _).
Qed.

Lemma play_current_track_loop_mode gp gp' :
  play_current_track gp = Ok gp' -> loop_mode gp' = loop_mode gp.
Proof.
  unfold play_current_track. intros Hp.
  destruct (voice gp) as [v|], (current gp) as [t|]; simplify_eq; try done.
  destruct (extract_audio_url _) as [u|]; simplify_eq; [|done].
  destruct (String.eqb u ""); simplify_eq; [done|].
  destruct (vc_play _ v); simplify_eq/=. done.
Qed.

(** A pass that reaches the repeat-mode dispatch ran it in the repeat mode
    the player had at the start of the pass. *)
Lemma player_iteration_completed gp gp' :
  player_iteration gp = Completed gp' ->
  exists gp2, gp' = post_completion gp2 /\ loop_mode gp2 = loop_mode gp.
Proof.
  unfold player_iteration. intros Hit.
  destruct (vc_ready gp); [|done]. simpl in Hit.
  destruct (current gp) as [t|] eqn:Hc; simpl in Hit.
  - destruct (play_current_track _) as [gp2|] eqn:Hp; [|done].
    unfold await_completion in Hit.
    destruct (next_event gp2); [|done]. simplify_eq.
    exists gp2. split; [done|]. by rewrite (play_current_track_loop_mode _ _ Hp).
  - destruct (queue gp) as [|hd rest]; [done|]. simpl in Hit.
    destruct (play_current_track _) as [gp2|] eqn:Hp; [|done].
    unfold await_completion in Hit.
    destruct (next_event gp2); [|done]. simplify_eq.
    exists gp2. split; [done|]. by rewrite (play_current_track_loop_mode _ _ Hp).
Qed.

(** With the voice client ready and the stream url of the track to play not
    extractable ([extract_audio_url] gives [None] or an empty url), one pass
    of the loop runs straight through the repeat-mode dispatch: it does not
    block on the completion signal and does not end in the [except] arm.
    The track is the one in the current slot or, with the slot empty, the
    head of the queue.  Outside repeat mode [track] the slot is empty
    afterwards; in repeat mode [track] the dispatch keeps the track. *)
Theorem broken_track_is_skipped gp v t :
  vc_ready gp = true -> voice gp = Some v ->
  (let query := if String.eqb (url t) "" then webpage_url t else url t in
   extract_audio_url query = None \/ extract_audio_url query = Some "") ->
  (current gp = Some t ->
     player_iteration gp = Completed (post_completion (set_next_event true gp))) /\
  (forall rest, current gp = None -> queue gp = t :: rest ->
     player_iteration gp =
       Completed (post_completion
                    (set_next_event true (set_current (Some t) (set_queue rest gp))))) /\
  (forall gp', player_iteration gp = Completed gp' ->
     loop_mode gp <> "track" -> current gp' = None).
Proof.
  intros Hr Hv Hx. split; [|split].
  - intros Hc. unfold player_iteration. rewrite Hr. simpl. rewrite Hc. simpl.
    by rewrite (play_current_track_no_stream _ v t).
  - intros rest Hc Hq. unfold player_iteration. rewrite Hr. simpl.
    rewrite Hc, Hq. simpl.
    by rewrite (play_current_track_no_stream _ v t).
  - intros gp' Hit Hm.
    destruct (player_iteration_completed gp gp' Hit) as (gp2 & -> & Hm2).
    apply post_completion_clears. by rewrite Hm2.
Qed.

End SessionFacts.

(** ** The control ingestor *)

Section IngestFacts.
Context {R : Runtime}.
Implicit Types (data file raw : list byte) (players : gmap Z GuildPlayer).

Lemma control_read_end pos data :
  (pos <= length data)%nat -> snd (control_read pos data) = length data.
Proof.
  intros Hp. unfold control_read. simpl. rewrite length_drop. lia.
Qed.

Lemma control_read_appended file a :
  control_read (length file) (file ++ a) = (a, length (file ++ a)).
Proof.
  unfold control_read. rewrite drop_app_length, length_app. reflexivity.
Qed.

Lemma splitlines_record r rest :
  line_free r = true -> splitlines (r ++ x0a :: rest) = r :: splitlines rest.
Proof.
  unfold line_free. induction r as [|b r IH]; simpl; [done|].
  intros [Hb Hr]%andb_true_iff.
  apply negb_true_iff, orb_false_iff in Hb as [-> ->].
  by rewrite IH.
Qed.

Lemma splitlines_record_lines records :
  forallb line_free records = true -> splitlines (record_lines records) = records.
Proof.
  unfold record_lines. induction records as [|r rs IH]; simpl; [done|].
  intros [Hr Hrs]%andb_true_iff.
  rewrite <- app_assoc. simpl. rewrite splitlines_record by done.
  by rewrite IH.
Qed.

Lemma control_tick_lines pos players data :
  control_tick (pos, players) (Ok data) =
    (snd (control_read pos data), foldl apply_line players (tick_lines pos data)).
Proof.
  unfold control_tick, tick_lines, control_read. simpl.
  by destruct (drop pos data).
Qed.

Lemma control_tick_appended file a players :
  control_tick (length file, players) (Ok (file ++ a)) =
    (length (file ++ a), foldl apply_line players (splitlines a)).
Proof.
  rewrite control_tick_lines. unfold tick_lines.
  by rewrite control_read_appended.
Qed.

(** Over an append-only log the loop hands the decoder, tick by tick, the
    lines of the chunk appended since the tick before. *)
Lemma control_loop_observed file appends players :
  control_loop (length file, players) (Ok <$> observed file appends) =
    (length (file ++ concat appends),
     foldl apply_line players (concat (splitlines <$> appends))).
Proof.
  unfold control_loop. revert file players.
  induction appends as [|a rest IH]; intros file players.
  - simpl. by rewrite app_nil_r.
  - cbn [observed concat]. rewrite !fmap_cons. cbn [foldl concat].
    rewrite control_tick_appended, IH, foldl_app. by rewrite <- app_assoc.
Qed.

Lemma record_lines_app rs1 rs2 :
  record_lines (rs1 ++ rs2) = record_lines rs1 ++ record_lines rs2.
Proof.
  unfold record_lines. by rewrite map_app, concat_app.
Qed.

Lemma record_lines_concat (batches : list (list (list byte))) :
  concat (record_lines <$> batches) = record_lines (concat batches).
Proof.
  induction batches as [|rs rest IH]; [done|].
  rewrite fmap_cons. cbn [concat]. by rewrite record_lines_app, <- IH.
Qed.

Lemma splitlines_batches (batches : list (list (list byte))) :
  forallb (forallb line_free) batches = true ->
  concat (splitlines <$> (record_lines <$> batches)) = concat batches.
Proof.
  induction batches as [|rs rest IH]; [done|].
  cbn [forallb]. intros [Hrs Hrest]%andb_true_iff.
  rewrite !fmap_cons. cbn [concat].
  by rewrite splitlines_record_lines, IH.
Qed.

(** C2, as the code has it.  On attach the read position is the size of the
    log.  A tick reads every byte from the position to the end of the file,
    moves the position to the end of the file and hands each line of what it
    read to the decoder, an unterminated last line included.  So over an
    append-only log nothing written before the attach is decoded, and when
    what is appended between two ticks is always a run of complete records,
    every record appended after the attach is applied exactly once, in log
    order. *)
Theorem control_ingest_from_attach history players :
  control_attach (Ok (length history)) = length history /\
  (forall pos data, (pos <= length data)%nat ->
     control_tick (pos, players) (Ok data) =
       (length data, foldl apply_line players (splitlines (drop pos data)))) /\
  (forall appends,
     control_loop (control_attach (Ok (length history)), players)
                  (Ok <$> observed history appends) =
       (length (history ++ concat appends),
        foldl apply_line players (concat (splitlines <$> appends)))) /\
  (forall batches, forallb (forallb line_free) batches = true ->
     control_loop (control_attach (Ok (length history)), players)
                  (Ok <$> observed history (record_lines <$> batches)) =
       (length (history ++ record_lines (concat batches)),
        foldl apply_line players (concat batches))).
Proof.
  split; [done|]. split; [|split].
  - intros pos data Hp. rewrite control_tick_lines.
    by rewrite control_read_end.
  - intros appends. apply control_loop_observed.
  - intros batches Hb. simpl. rewrite control_loop_observed.
    by rewrite record_lines_concat, splitlines_batches.
Qed.

End IngestFacts.

(** ** Closed instances on the reference runtime *)

Lemma post_completion_repeat_policy_witness :
  let x := sample_track "X" in
  let y := sample_track "Y" in
  let gp mode := set_current (Some x) (set_queue [y] (set_loop_mode mode (new_player 7))) in
  (post_completion (gp "track") = gp "track" /\
   forall n, Nat.iter n post_completion (gp "track") = gp "track") /\
  (post_completion (gp "queue")
     = set_current None (set_queue (queue (gp "queue") ++ [x]) (gp "queue")) /\
   queue (post_completion (gp "queue")) = queue (gp "queue") ++ [x] /\
   length (queue (post_completion (gp "queue"))) = S (length (queue (gp "queue"))) /\
   current (post_completion (gp "queue")) = None) /\
  (post_completion (gp "auto") = set_current None (gp "auto") /\
   queue (post_completion (gp "auto")) = queue (gp "auto") /\
   current (post_completion (gp "auto")) = None).
Proof.
  intros x y gp. split; [|split].
  - apply (proj1 (proj2 (post_completion_repeat_policy (gp "track") x eq_refl))).
    reflexivity.
  - apply (proj1 (proj2 (proj2 (post_completion_repeat_policy (gp "queue") x eq_refl)))).
    reflexivity.
  - apply (proj2 (proj2 (proj2 (post_completion_repeat_policy (gp "auto") x eq_refl)))).
    right. reflexivity.
Defined.

Lemma q_remove_spec_witness :
  let gp := set_queue [sample_track "A"; sample_track "B"] (new_player 7) in
  q_remove 99 gp = Ok (None, gp) /\
  (exists item,
     queue gp !! Z.to_nat (2 - 1) = Some item /\
     q_remove 2 gp = Ok (Some item, set_queue (delete (Z.to_nat (2 - 1)) (queue gp)) gp)) /\
  apply_control (R := ref_runtime)
    (control_record "queue_remove" [("guild_id", JInt 7); ("index", JInt 99)])
    {[7 := gp]} = ({[7 := gp]}, Ok tt).
Proof.
  intros gp. split; [|split].
  - apply (proj1 (q_remove_spec (R := ref_runtime) gp 99)). right. reflexivity.
  - apply (proj1 (proj2 (q_remove_spec (R := ref_runtime) gp 2))).
    vm_compute. split; discriminate.
  - apply (proj2 (proj2 (q_remove_spec (R := ref_runtime) gp 99)) _ _ 7);
      try reflexivity.
    discriminate.
Defined.

(** C5 as stated fails: a [clear] record that names session 7 under the key
    [session_id] leaves the queue of session 7 as it was, while the same
    record under [guild_id] empties it. *)
Lemma session_id_key_is_not_read :
  let gp := set_queue [sample_track "A"] (new_player 7) in
  apply_control (R := ref_runtime)
    (control_record "clear" [("session_id", JInt 7)]) {[7 := gp]}
    = ({[7 := gp]}, Ok tt) /\
  queue gp = [sample_track "A"] /\
  apply_control (R := ref_runtime)
    (control_record "clear" [("guild_id", JInt 7)]) {[7 := gp]}
    = ({[7 := set_queue [] gp]}, Ok tt).
Proof.
  intros gp. split; [|split]; [|reflexivity|].
  - unfold apply_control. simpl. reflexivity.
  - rewrite (apply_control_on_player (R := ref_runtime) "clear" _ 7 gp);
      [|reflexivity|discriminate|apply lookup_singleton_eq].
    simpl. by rewrite insert_singleton_eq.
Qed.

Lemma control_dispatch_by_guild_id_witness :
  let gp := set_queue [sample_track "A"] (new_player 7) in
  let players : gmap Z GuildPlayer := {[7 := gp; 8 := new_player 8]} in
  let evt := control_record "CLEAR" [("guild_id", JInt 7)] in
  ((exists gp',
      fst (apply_control (R := ref_runtime) evt players) !! 7 = Some gp' /\
      (dispatch (R := ref_runtime) "clear" (JDict [("guild_id", JInt 7)])
                (get_player 7 players).1 = Ok gp' \/
       (exists e, dispatch (R := ref_runtime) "clear" (JDict [("guild_id", JInt 7)])
                           (get_player 7 players).1 = Raise e) /\
       gp' = (get_player 7 players).1)) /\
   (forall g', g' <> 7 ->
      fst (apply_control (R := ref_runtime) evt players) !! g' = players !! g')) /\
  apply_control (R := ref_runtime)
    (control_record "clear" [("session_id", JInt 7); ("guild_id", JNull)]) players
    = (players, Ok tt).
Proof.
  intros gp players evt. split.
  - apply (proj1 (control_dispatch_by_guild_id (R := ref_runtime) evt players)
             "clear" (JDict [("guild_id", JInt 7)]) 7); [reflexivity|discriminate].
  - apply (proj2 (proj2 (proj2 (control_dispatch_by_guild_id (R := ref_runtime)
             (control_record "clear" [("session_id", JInt 7); ("guild_id", JNull)])
             players))) "clear" [("session_id", JInt 7); ("guild_id", JNull)]);
      reflexivity.
Defined.

Lemma control_record_creates_player_witness :
  let evt := control_record "dance" [("guild_id", JInt 7)] in
  let players : gmap Z GuildPlayer := {[8 := set_loop_mode "queue" (new_player 8)]} in
  is_Some (fst (apply_control (R := ref_runtime) evt players) !! 7) /\
  apply_control (R := ref_runtime) evt players = ((get_player 7 players).2, Ok tt) /\
  (players !! 7 = None ->
     fst (apply_control (R := ref_runtime) evt players) = <[7 := new_player 7]> players) /\
  (forall g' gp, players !! g' = Some gp ->
     fst (apply_control (R := ref_runtime) evt players) !! g' = Some gp).
Proof.
  intros evt players.
  assert (Hun : "dance" ∉ recognized_actions) by compute_done.
  pose proof (control_record_creates_player (R := ref_runtime) evt players
                "dance" (JDict [("guild_id", JInt 7)]) 7 eq_refl) as Hthm.
  split.
  - apply Hthm. discriminate.
  - apply Hthm; [discriminate|exact Hun].
Defined.

Lemma control_volume_level_zero_witness :
  volume <$> fst (apply_control (R := ref_runtime)
                    (control_record "volume" [("guild_id", JInt 7); ("level", JInt 0)])
                    ∅) !! 7 = Some 100 /\
  volume <$> cmd_volume 7 0 ∅ !! 7 = Some 1.
Proof.
  apply (control_volume_level_zero (R := ref_runtime) "volume"
           [("guild_id", JInt 7); ("level", JInt 0)] 7 ∅);
    [reflexivity|reflexivity|discriminate|reflexivity].
Defined.

Lemma control_loop_stores_any_mode_witness :
  loop_mode <$> fst (apply_control (R := ref_runtime)
                       (control_record "loop" [("guild_id", JInt 1); ("mode", JStr "banana")])
                       ∅) !! 1 = Some "banana" /\
  ("banana" ∉ loop_modes).
Proof.
  split; [|compute_done].
  apply (control_loop_stores_any_mode (R := ref_runtime) "loop"
           [("guild_id", JInt 1); ("mode", JStr "banana")] 1 "banana" ∅);
    [reflexivity|reflexivity|discriminate|reflexivity|discriminate].
Defined.

Lemma disconnect_teardown_witness :
  let gp := set_vc_ready true
              (set_voice (Some (mkVoice true VPlaying (Some (mkSource "stream" 100))))
                 (set_current (Some (sample_track "X"))
                    (set_queue [sample_track "Y"]
                       (start_player_loop (new_player 7))))) in
  queue (disconnect gp) = [] /\
  current (disconnect gp) = None /\
  voice (disconnect gp) = None /\
  vc_ready (disconnect gp) = false /\
  next_event (disconnect gp) = true /\
  play_task (disconnect gp) = play_task gp /\
  (guild_id (disconnect gp), volume (disconnect gp), loop_mode (disconnect gp))
    = (guild_id gp, volume gp, loop_mode gp) /\
  disconnect (disconnect gp) = disconnect gp /\
  player_iteration (R := ref_runtime) (disconnect gp) = WaitReady (disconnect gp) /\
  apply_control (R := ref_runtime) (control_record "leave" [("guild_id", JInt 7)])
    {[7 := gp]} = (<[7 := disconnect gp]> {[7 := gp]}, Ok tt).
Proof.
  intros gp.
  destruct (disconnect_teardown (R := ref_runtime) gp)
    as (H1 & H2 & H3 & H4 & H5 & H6 & H7 & H8 & H9 & H10).
  repeat (split; [assumption|]).
  apply (H10 "leave" [("guild_id", JInt 7)] 7 {[7 := gp]});
    [reflexivity|reflexivity|discriminate|reflexivity].
Defined.

(** C6 as stated fails: after [disconnect], and after a [leave] record, the
    loop task of the session is still running. *)
Lemma disconnect_keeps_loop_task :
  let gp := start_player_loop (new_player 7) in
  play_task gp = Some TaskRunning /\
  play_task (disconnect gp) = Some TaskRunning /\
  play_task <$> fst (apply_control (R := ref_runtime)
                       (control_record "leave" [("guild_id", JInt 7)])
                       {[7 := gp]}) !! 7 = Some (Some TaskRunning).
Proof.
  intros gp. split; [reflexivity|]. split; [reflexivity|].
  rewrite (apply_control_on_player (R := ref_runtime) "leave" _ 7 gp);
    [|reflexivity|discriminate|apply lookup_singleton_eq].
  simpl. by rewrite lookup_insert_eq.
Qed.

Lemma broken_track_is_skipped_witness :
  let x := sample_track "X" in
  let y := sample_track "Y" in
  let v := mkVoice true VIdle None in
  let gp := set_vc_ready true (set_voice (Some v) (set_queue [x; y] (new_player 7))) in
  player_iteration (R := ref_runtime) gp =
    Completed (post_completion
                 (set_next_event true (set_current (Some x) (set_queue [y] gp)))) /\
  (forall gp', player_iteration (R := ref_runtime) gp = Completed gp' ->
     loop_mode gp <> "track" -> current gp' = None).
Proof.
  intros x y v gp.
  pose proof (broken_track_is_skipped (R := ref_runtime) gp v x eq_refl eq_refl
                (or_introl eq_refl)) as (_ & Hpop & Hclear).
  split; [apply Hpop; reflexivity|exact Hclear].
Defined.

Lemma control_ingest_from_attach_witness :
  let history := json_text "{'action':'clear','payload':{'guild_id':7}}" ++ [x0a] in
  let r1 := json_text "{'action':'volume','payload':{'guild_id':7,'level':500}}" in
  let r2 := json_text "{'action':'loop','payload':{'guild_id':7,'mode':'queue'}}" in
  let r3 := json_text "{'action':'queue_remove','payload':{'guild_id':7,'index':1}}" in
  let gp := set_queue [sample_track "A"; sample_track "B"] (new_player 7) in
  let players : gmap Z GuildPlayer := {[7 := gp]} in
  control_loop (R := ref_runtime)
    (control_attach (Ok (length history)), players)
    (Ok <$> observed history (record_lines <$> [[r1; r2]; []; [r3]])) =
    (length (history ++ record_lines [r1; r2; r3]),
     foldl (apply_line (R := ref_runtime)) players [r1; r2; r3]) /\
  foldl (apply_line (R := ref_runtime)) players [r1; r2; r3] =
    {[7 := set_queue [sample_track "B"]
             (set_loop_mode "queue" (set_stored_volume 200 gp))]}.
Proof.
  intros history r1 r2 r3 gp players. split.
  - apply (proj2 (proj2 (proj2 (control_ingest_from_attach (R := ref_runtime)
                                  history players))) [[r1; r2]; []; [r3]]).
    reflexivity.
  - vm_compute. reflexivity.
Defined.

(** C2 as stated fails: a record whose first 18 bytes are readable at one
    tick and whose rest, terminator included, at the next is consumed in two
    pieces, the read position standing at 18 in between, and is never
    applied; readable at one tick, the same record empties the queue. *)
Lemma partial_record_is_consumed :
  let record := json_text "{'action':'clear','payload':{'guild_id':7}}" in
  let gp := set_queue [sample_track "A"] (new_player 7) in
  let players : gmap Z GuildPlayer := {[7 := gp]} in
  control_tick (R := ref_runtime) (control_attach (Ok 0%nat), players)
               (Ok (take 18 record)) = (18%nat, players) /\
  tick_lines 0 (take 18 record) = [take 18 record] /\
  tick_lines 18 (record ++ [x0a]) = [drop 18 record] /\
  control_loop (R := ref_runtime) (control_attach (Ok 0%nat), players)
               [Ok (take 18 record); Ok (record ++ [x0a])]
    = (length (record ++ [x0a]), players) /\
  control_loop (R := ref_runtime) (control_attach (Ok 0%nat), players)
               [Ok (record ++ [x0a])]
    = (length (record ++ [x0a]), {[7 := set_queue [] gp]}).
Proof.
  intros record gp players. repeat split; vm_compute; reflexivity.
Qed.

(** * Further properties *)

(** ** Queue edits compose *)

Section QueueEdits.
Implicit Types (gp : GuildPlayer) (t : Track).

Lemma set_queue_twice q q' gp : set_queue q (set_queue q' gp) = set_queue q gp.
Proof. reflexivity. Qed.

Lemma py_insert_front {A : Type} (x : A) (l : list A) : py_insert 0 x l = x :: l.
Proof.
  rewrite py_insert_in_range by (unfold py_len; lia). reflexivity.
Qed.

Lemma q_remove_head gp t rest :
  queue gp = t :: rest -> q_remove 1 gp = Ok (Some t, set_queue rest gp).
Proof.
  intros Hq.
  destruct (q_remove_in_range gp 1) as (item & Hitem & ->).
  { unfold q_len, py_len. rewrite Hq. simpl. lia. }
  rewrite Hq in *. simpl in *. by simplify_eq.
Qed.

Lemma q_remove_last gp t front :
  queue gp = front ++ [t] ->
  q_remove (q_len gp) gp = Ok (Some t, set_queue front gp).
Proof.
  intros Hq.
  assert (Hlen : q_len gp = Z.of_nat (length front) + 1).
  { unfold q_len, py_len. rewrite Hq, length_app. simpl. lia. }
  destruct (q_remove_in_range gp (q_len gp)) as (item & Hitem & ->); [lia|].
  rewrite Hlen in *.
  replace (Z.to_nat (Z.of_nat (length front) + 1 - 1)) with (length front) in * by lia.
  rewrite Hq in *. rewrite list_lookup_middle in Hitem by done. simplify_eq.
  rewrite delete_take_drop, take_app_length.
  rewrite cons_middle, app_assoc, drop_app_length'
    by (rewrite length_app; simpl; lia).
  by rewrite app_nil_r.
Qed.

(** [q_add] puts the track at the tail, or at the head for "play next"; the
    queue grows by one either way, and [q_remove] at that position gives the
    track back and restores the player. *)
Theorem q_add_then_remove gp t :
  queue (q_add t true gp) = t :: queue gp /\
  queue (q_add t false gp) = queue gp ++ [t] /\
  q_len (q_add t true gp) = q_len gp + 1 /\
  q_len (q_add t false gp) = q_len gp + 1 /\
  q_remove 1 (q_add t true gp) = Ok (Some t, gp) /\
  q_remove (q_len gp + 1) (q_add t false gp) = Ok (Some t, gp).
Proof.
  assert (Hf : queue (q_add t true gp) = t :: queue gp).
  { simpl. apply py_insert_front. }
  assert (Hb : queue (q_add t false gp) = queue gp ++ [t]) by done.
  assert (Hlf : q_len (q_add t true gp) = q_len gp + 1).
  { unfold q_len, py_len. rewrite Hf. simpl. lia. }
  assert (Hlb : q_len (q_add t false gp) = q_len gp + 1).
  { unfold q_len, py_len. rewrite Hb, length_app. simpl. lia. }
  repeat (split; [assumption|]). split.
  - rewrite (q_remove_head _ t (queue gp) Hf). simpl.
    rewrite set_queue_twice. by destruct gp.
  - rewrite <- Hlb, (q_remove_last _ t (queue gp) Hb). simpl.
    by destruct gp.
Qed.

(** Moving an item and then moving it back, both positions inside the queue,
    restores the player. *)
Theorem q_move_back_restores gp src dst :
  1 <= src <= q_len gp -> 1 <= dst <= q_len gp ->
  exists gp1,
    q_move src dst gp = Ok (true, gp1) /\
    q_len gp1 = q_len gp /\
    q_move dst src gp1 = Ok (true, gp).
Proof.
  intros Hs Hd.
  destruct (q_move_accepts gp src dst Hs Hd) as (item & Hitem & Hmove).
  pose proof (lookup_lt_Some _ _ _ Hitem) as Hlt.
  set (i := Z.to_nat (src - 1)) in *. set (j := Z.to_nat (dst - 1)) in *.
  set (rest := delete i (queue gp)) in *.
  assert (Hrest : S (length rest) = length (queue gp)).
  { subst rest. rewrite length_delete by eauto. lia. }
  assert (Hj : (j <= length rest)%nat).
  { unfold q_len, py_len in *. lia. }
  eexists. split; [exact Hmove|].
  assert (Hlen : q_len (set_queue (take j rest ++ item :: drop j rest) gp) = q_len gp).
  { unfold q_len, py_len. simpl.
    rewrite length_app, length_take. simpl. rewrite length_drop. lia. }
  split; [exact Hlen|].
  destruct (q_move_accepts (set_queue (take j rest ++ item :: drop j rest) gp) dst src)
    as (item' & Hitem' & ->); [lia|lia|].
  simpl in Hitem'. fold j in Hitem'.
  rewrite insert_at_lookup in Hitem' by done. simplify_eq.
  simpl. fold i j. rewrite insert_at_delete by done.
  subst rest. rewrite delete_reinsert by done.
  by destruct gp.
Qed.

Lemma q_move_back_restores_witness :
  let gp := set_queue [sample_track "A"; sample_track "B"; sample_track "C"]
                      (new_player 7) in
  exists gp1,
    q_move 3 1 gp = Ok (true, gp1) /\
    q_len gp1 = q_len gp /\
    q_move 1 3 gp1 = Ok (true, gp).
Proof.
  intros gp. apply (q_move_back_restores gp 3 1); vm_compute; split; discriminate.
Defined.

End QueueEdits.

(** ** Volume and loop task *)

Section SessionExtras.
Context {R : Runtime}.
Implicit Types (gp : GuildPlayer) (players : gmap Z GuildPlayer).

(** [set_volume] stores the level clamped into [1, 200]: a level in range is
    stored as given, a lower one as 1, a higher one as 200.  A source that is
    attached to the voice client afterwards carries the stored level, and
    setting the stored level again changes nothing.  Of the player only the
    stored level and the voice client change, and of the voice client only
    the level of an attached source: without a voice client there is none
    afterwards, a client without a source is kept as it is, and a client with
    a source keeps its connection, its playing state and the stream of the
    source. *)
Theorem set_volume_clamps vol gp :
  1 <= volume (set_volume vol gp) <= 200 /\
  (1 <= vol <= 200 -> volume (set_volume vol gp) = vol) /\
  (vol < 1 -> volume (set_volume vol gp) = 1) /\
  (200 < vol -> volume (set_volume vol gp) = 200) /\
  (forall v s, voice (set_volume vol gp) = Some v -> vc_source v = Some s ->
     src_volume s = volume (set_volume vol gp)) /\
  set_volume vol gp =
    set_voice (voice (set_volume vol gp))
              (set_stored_volume (volume (set_volume vol gp)) gp) /\
  set_volume (volume (set_volume vol gp)) (set_volume vol gp) = set_volume vol gp /\
  (voice gp = None -> voice (set_volume vol gp) = None) /\
  (forall v, voice gp = Some v -> vc_source v = None ->
     voice (set_volume vol gp) = Some v) /\
  (forall v s, voice gp = Some v -> vc_source v = Some s ->
     voice (set_volume vol gp)
       = Some (mkVoice (vc_connected v) (vc_status v)
                       (Some (mkSource (src_stream s) (Z.max 1 (Z.min 200 vol)))))) /\
  set_volume vol gp =
    mkPlayer (guild_id gp) (queue gp) (Z.max 1 (Z.min 200 vol)) (loop_mode gp)
             (current gp) (voice (set_volume vol gp)) (next_event gp)
             (play_task gp) (vc_ready gp).
Proof.
  rewrite set_volume_stored.
  split; [lia|]. split; [lia|]. split; [lia|]. split; [lia|].
  destruct gp as [g q v0 m c [[conn st [s|]]|] ne pt rd];
    unfold set_volume, voice_and, on_voice, vc_set_source_volume; simpl.
  - split; [intros v s' ? ?; by simplify_eq/=|]. split; [done|].
    split; [by rewrite !Z.max_r, !Z.min_r by lia|].
    split; [done|]. split; [intros v ? ?; by simplify_eq/=|].
    split; [intros v s' ? ?; by simplify_eq/=|done].
  - split; [intros v s' ? ?; by simplify_eq/=|]. split; [done|].
    split; [by rewrite !Z.max_r, !Z.min_r by lia|].
    split; [done|]. split; [intros v ? ?; by simplify_eq/=|].
    split; [intros v s' ? ?; by simplify_eq/=|done].
  - split; [intros v s' ? ?; by simplify_eq/=|]. split; [done|].
    split; [by rewrite !Z.max_r, !Z.min_r by lia|].
    split; [done|]. split; [intros v ? ?; by simplify_eq/=|].
    split; [intros v s' ? ?; by simplify_eq/=|done].
Qed.

Lemma set_volume_clamps_witness :
  let gp := set_voice (Some (mkVoice true VPlaying (Some (mkSource "stream" 100))))
                      (new_player 7) in
  volume (set_volume 150 gp) = 150 /\
  volume (set_volume 0 gp) = 1 /\
  volume (set_volume 500 gp) = 200 /\
  voice (set_volume 500 gp)
    = Some (mkVoice true VPlaying (Some (mkSource "stream" 200))) /\
  voice (set_volume 500 (new_player 7)) = None.
Proof.
  intros gp. split; [|split; [|split; [|split]]].
  - apply (proj1 (proj2 (set_volume_clamps 150 gp))). lia.
  - apply (proj1 (proj2 (proj2 (set_volume_clamps 0 gp)))). lia.
  - apply (proj1 (proj2 (proj2 (proj2 (set_volume_clamps 500 gp))))). lia.
  - apply (proj1 (proj2 (proj2 (proj2 (proj2 (proj2 (proj2 (proj2 (proj2 (proj2
             (set_volume_clamps 500 gp))))))))))
             (mkVoice true VPlaying (Some (mkSource "stream" 100)))
             (mkSource "stream" 100)); reflexivity.
  - apply (proj1 (proj2 (proj2 (proj2 (proj2 (proj2 (proj2 (proj2
             (set_volume_clamps 500 (new_player 7)))))))))).
    reflexivity.
Defined.

Lemma start_player_loop_sets gp :
  start_player_loop gp = set_play_task (Some TaskRunning) gp.
Proof.
  by destruct gp as [g q v0 m c v ne [[|]|] rd].
Qed.

(** [start_player_loop] leaves a running loop task in place and starts one
    otherwise, so asking twice is the same as asking once; it changes nothing
    else of the player. *)
Theorem start_player_loop_idempotent gp :
  play_task (start_player_loop gp) = Some TaskRunning /\
  (play_task gp = Some TaskRunning -> start_player_loop gp = gp) /\
  start_player_loop (start_player_loop gp) = start_player_loop gp /\
  start_player_loop gp = set_play_task (Some TaskRunning) gp.
Proof.
  destruct gp as [g q v0 m c v ne [[|]|] rd]; unfold start_player_loop; simpl;
    repeat split; done.
Qed.

Lemma start_player_loop_idempotent_witness :
  let gp := start_player_loop (set_queue [sample_track "A"] (new_player 7)) in
  start_player_loop gp = gp.
Proof.
  intros gp. apply (proj1 (proj2 (start_player_loop_idempotent gp))). reflexivity.
Defined.

(** *** What a control record can do to a session *)

Lemma q_remove_only_queue idx gp o gp1 :
  q_remove idx gp = Ok (o, gp1) -> gp1 = set_queue (queue gp1) gp.
Proof.
  unfold q_remove. intros Hq.
  destruct (_ && _); [|simplify_eq; by destruct gp1].
  destruct (py_pop _ _) as [[x r]|]; by simplify_eq/=.
Qed.

Lemma q_move_only_queue src dst gp b gp1 :
  q_move src dst gp = Ok (b, gp1) -> gp1 = set_queue (queue gp1) gp.
Proof.
  unfold q_move. intros Hq.
  destruct (_ || _); [simplify_eq; by destruct gp1|].
  destruct (py_pop _ _) as [[x r]|]; by simplify_eq/=.
Qed.

Lemma set_volume_guild vol gp : guild_id (set_volume vol gp) = guild_id gp.
Proof. unfold set_volume. by destruct (voice_and _ _). Qed.

Lemma start_player_loop_fields gp :
  guild_id (start_player_loop gp) = guild_id gp /\
  volume (start_player_loop gp) = volume gp /\
  queue (start_player_loop gp) = queue gp.
Proof. unfold start_player_loop. by destruct (play_task gp) as [[|]|]. Qed.

(** No branch of [_apply_control] changes the guild id of the player, and a
    branch that changes the volume leaves it inside [1, 200]. *)
Lemma dispatch_identity a p gp gp' :
  dispatch a p gp = Ok gp' ->
  guild_id gp' = guild_id gp /\
  (volume gp' = volume gp \/ 1 <= volume gp' <= 200).
Proof.
  unfold dispatch. intros Hd.
  destruct (bool_decide (a ∈ transport_actions)).
  { repeat (match type of Hd with
            | (if ?c then _ else _) = _ => destruct c
            end; [simplify_eq; try rewrite disconnect_state; simpl; by auto|]).
    simplify_eq. by auto. }
  destruct (String.eqb a "loop").
  { destruct (py_get p "mode"); simplify_eq/=. by auto. }
  destruct (String.eqb a "volume").
  { simplify_eq. split; [apply set_volume_guild|right; apply set_volume_bounds]. }
  destruct (bool_decide (a ∈ ["play"; "playtop"])).
  { destruct (py_get p "query") as [q|]; simplify_eq/=.
    destruct (String.eqb _ ""); [simplify_eq; by auto|].
    destruct (ytdl_search _) as [[|t items]|]; simplify_eq/=.
    - destruct (start_player_loop_fields gp) as (-> & -> & _). by auto.
    - destruct (py_get p "user_id") as [u|]; simplify_eq/=.
      destruct (py_int _) as [uid|]; simplify_eq/=.
      match goal with
      | |- context [start_player_loop ?g] =>
          destruct (start_player_loop_fields g) as (-> & -> & _)
      end.
      destruct (String.eqb a "playtop"); simpl; by auto. }
  destruct (String.eqb a "queue_remove").
  { destruct (py_get p "index") as [i|]; simplify_eq/=.
    destruct (py_int _) as [idx|]; simplify_eq/=.
    destruct (q_remove idx gp) as [[o gp1]|] eqn:Hq; simplify_eq/=.
    rewrite (q_remove_only_queue _ _ _ _ Hq). simpl. by auto. }
  destruct (String.eqb a "queue_move").
  { destruct (py_get p "src") as [s|]; simplify_eq/=.
    destruct (py_int _) as [src|]; simplify_eq/=.
    destruct (py_get p "dst") as [d|]; simplify_eq/=.
    destruct (py_int _) as [dst|]; simplify_eq/=.
    destruct (q_move src dst gp) as [[b gp1]|] eqn:Hq; simplify_eq/=.
    rewrite (q_move_only_queue _ _ _ _ _ Hq). simpl. by auto. }
  simplify_eq. by auto.
Qed.

Lemma sessions_ok_insert g gp players :
  session_ok g gp -> sessions_ok players -> sessions_ok (<[g := gp]> players).
Proof.
  intros Hgp Hps g' gp' Hl.
  destruct (decide (g = g')) as [<-|Hne].
  - rewrite lookup_insert_eq in Hl. by simplify_eq.
  - rewrite lookup_insert_ne in Hl by done. by apply Hps.
Qed.

Lemma new_player_ok g : session_ok g (new_player g).
Proof. unfold session_ok. simpl. lia. Qed.

Lemma get_player_ok g players :
  sessions_ok players ->
  session_ok g (get_player g players).1 /\ sessions_ok (get_player g players).2.
Proof.
  intros Hps. unfold get_player.
  destruct (players !! g) as [gp|] eqn:Hl; simpl.
  - split; [by apply Hps|done].
  - split; [apply new_player_ok|].
    apply sessions_ok_insert; [apply new_player_ok|done].
Qed.

Lemma insert_get_player g players :
  <[g := (get_player g players).1]> (get_player g players).2
    = (get_player g players).2.
Proof. apply insert_id, get_player_lookup. Qed.

Lemma apply_control_sessions_ok evt players :
  sessions_ok players -> sessions_ok (fst (apply_control evt players)).
Proof.
  intros Hps. rewrite apply_control_unfold.
  destruct (control_target evt) as [[[a p] g]|e]; [|done].
  destruct (g =? 0); [done|].
  destruct (get_player_ok g players Hps) as [[Hid Hvol] Hps1].
  destruct (dispatch a p _) as [gp'|e] eqn:Hd; [|done].
  apply sessions_ok_insert; [|done].
  destruct (dispatch_identity _ _ _ _ Hd) as [Hid' Hvol'].
  split; [congruence|]. destruct Hvol' as [->|]; done.
Qed.

Lemma apply_line_sessions_ok players line :
  sessions_ok players -> sessions_ok (apply_line players line).
Proof.
  intros Hps. unfold apply_line.
  destruct (json_loads line); [by apply apply_control_sessions_ok|done].
Qed.

Lemma control_tick_sessions_ok st file :
  sessions_ok (snd st) -> sessions_ok (snd (control_tick st file)).
Proof.
  destruct st as [pos players]. intros Hps. simpl in Hps.
  destruct file as [data|e]; [|done].
  rewrite control_tick_lines. simpl.
  generalize (tick_lines pos data). intros lines.
  revert players Hps. induction lines as [|l ls IH]; intros players Hps; [done|].
  simpl. by apply IH, apply_line_sessions_ok.
Qed.

(** Every session the control loop leaves in the dictionary is stored under
    its own guild id and has a volume inside [1, 200], whatever the log
    holds, if that was so before; the volume and loop commands keep it so as
    well.  It is so in the empty dictionary the cog starts with. *)
Theorem control_loop_keeps_sessions_ok st files :
  sessions_ok (snd st) ->
  sessions_ok (snd (control_loop st files)) /\
  (forall g level, sessions_ok (cmd_volume g level (snd st))) /\
  (forall g mode, sessions_ok (cmd_loop g mode (snd st))) /\
  sessions_ok ∅.
Proof.
  intros Hps. split; [|split; [|split]].
  - unfold control_loop. revert st Hps.
    induction files as [|f fs IH]; intros st Hps; [done|].
    simpl. by apply IH, control_tick_sessions_ok.
  - intros g level. unfold cmd_volume.
    destruct (get_player_ok g (snd st) Hps) as [[Hid Hvol] Hps1].
    destruct (get_player g (snd st)) as [gp ps1]. simpl in *.
    apply sessions_ok_insert; [|done].
    split; [by rewrite set_volume_guild|apply set_volume_bounds].
  - intros g mode. unfold cmd_loop.
    destruct (get_player_ok g (snd st) Hps) as [[Hid Hvol] Hps1].
    destruct (get_player g (snd st)) as [gp ps1]. simpl in *.
    by apply sessions_ok_insert.
  - intros g gp Hl. by rewrite lookup_empty in Hl.
Qed.

(** *** Transport records *)

(** A [pause], [resume] or [skip] record returns normally and changes nothing
    of the player but its voice client: queue, current track, volume, repeat
    mode, signal and loop task stay.  Without a voice client it changes
    nothing at all. *)
Theorem transport_records_only_touch_voice a p gp :
  a ∈ ["pause"; "resume"; "skip"] ->
  exists gp',
    dispatch a p gp = Ok gp' /\
    gp' = set_voice (voice gp') gp /\
    (voice gp = None -> gp' = gp).
Proof.
  intros Ha.
  assert (Hcases : a = "pause" \/ a = "resume" \/ a = "skip").
  { apply list_elem_of_In in Ha. simpl in Ha.
    destruct Ha as [<-|[<-|[<-|[]]]]; auto. }
  unfold dispatch, voice_and, on_voice.
  destruct gp as [g q v0 m c [v|] ne pt rd];
    destruct Hcases as [-> | [-> | ->]]; simpl;
    repeat match goal with
    | |- context [if ?c then _ else _] => destruct c
    end; eexists; (split; [reflexivity|]); split; done.
Qed.

(** A [stop] record for a session without a voice client changes nothing, so
    queue and current track stay; with a voice client it empties both and
    stops the transport.  [cmd_stop] empties queue and current track in
    either case, and with a voice client leaves the player as the record
    does. *)
Theorem stop_record_needs_voice p gp g players :
  players !! g = Some gp ->
  (voice gp = None -> dispatch "stop" p gp = Ok gp) /\
  (forall v, voice gp = Some v ->
     dispatch "stop" p gp
       = Ok (set_voice (Some (vc_stop v)) (set_current None (set_queue [] gp))) /\
     fst (cmd_stop g players) !! g
       = Some (set_voice (Some (vc_stop v)) (set_current None (set_queue [] gp)))) /\
  (exists gp', fst (cmd_stop g players) !! g = Some gp' /\
               queue gp' = [] /\ current gp' = None).
Proof.
  intros Hl. unfold cmd_stop, get_player. rewrite Hl. simpl.
  rewrite lookup_insert_eq.
  split; [|split].
  - intros Hv. unfold dispatch, on_voice. simpl. by rewrite Hv.
  - intros v Hv. unfold dispatch, on_voice. simpl. by rewrite Hv.
  - eexists. split; [reflexivity|]. by destruct (voice gp).
Qed.

(** For pause, resume, clear, shuffle and leave the panel and the slash
    command do the same to the dictionary: a record for a nonzero guild and
    the command for that guild give the same players. *)
Theorem panel_and_slash_agree a fields g players :
  dict_get "guild_id" fields = JInt g -> g <> 0 ->
  (str_lower a = "pause" ->
     fst (apply_control (control_record a fields) players) = fst (cmd_pause g players)) /\
  (str_lower a = "resume" ->
     fst (apply_control (control_record a fields) players) = fst (cmd_resume g players)) /\
  (str_lower a = "clear" ->
     fst (apply_control (control_record a fields) players) = fst (cmd_clear g players)) /\
  (str_lower a = "shuffle" ->
     fst (apply_control (control_record a fields) players) = fst (cmd_shuffle g players)) /\
  (str_lower a = "leave" ->
     fst (apply_control (control_record a fields) players) = fst (cmd_leave g players)).
Proof.
  intros Hg Hne.
  assert (Hstep : forall act, str_lower a = act ->
    fst (apply_control (control_record a fields) players) =
      match dispatch act (JDict fields) (get_player g players).1 with
      | Ok gp' => <[g := gp']> (get_player g players).2
      | Raise _ => (get_player g players).2
      end).
  { intros act <-. rewrite apply_control_unfold, (control_target_guild a fields g Hg).
    by destruct (Z.eqb_spec g 0). }
  pose proof (insert_get_player g players) as Hid.
  repeat split; intros Ha; rewrite (Hstep _ Ha);
    unfold cmd_pause, cmd_resume, cmd_clear, cmd_shuffle, cmd_leave;
    destruct (get_player g players) as [gp ps1]; simpl in *;
    unfold dispatch; simpl;
    repeat match goal with
    | |- context [if ?c then _ else _] => destruct c
    end; simpl; done.
Qed.

(** *** Records that edit the queue or set a mode *)

Lemma py_int_or_int n : py_int (py_or (JInt n) (JInt 0)) = Ok n.
Proof.
  unfold py_or. simpl. by destruct (Z.eqb_spec n 0) as [->|].
Qed.

Lemma dispatch_queue_move p gp :
  dispatch "queue_move" p gp =
    (s ← py_get p "src";
     src ← py_int (py_or s (JInt 0));
     d ← py_get p "dst";
     dst ← py_int (py_or d (JInt 0));
     '(_, gp1) ← q_move src dst gp;
     Ok gp1).
Proof. reflexivity. Qed.

(** A [queue_remove] or [queue_move] record acts as [q_remove] or [q_move]
    on the converted fields and never raises once they convert; a field that
    is absent or null counts as position 0, which is out of range, so such a
    record changes nothing. *)
Theorem queue_records_follow_queue_ops fields gp :
  (forall idx, py_int (py_or (dict_get "index" fields) (JInt 0)) = Ok idx ->
     exists o gp1,
       q_remove idx gp = Ok (o, gp1) /\
       dispatch "queue_remove" (JDict fields) gp = Ok gp1) /\
  (forall src dst,
     py_int (py_or (dict_get "src" fields) (JInt 0)) = Ok src ->
     py_int (py_or (dict_get "dst" fields) (JInt 0)) = Ok dst ->
     exists b gp1,
       q_move src dst gp = Ok (b, gp1) /\
       dispatch "queue_move" (JDict fields) gp = Ok gp1) /\
  (dict_get "index" fields = JNull ->
     dispatch "queue_remove" (JDict fields) gp = Ok gp) /\
  (forall other,
     (dict_get "src" fields = JNull /\
      py_int (py_or (dict_get "dst" fields) (JInt 0)) = Ok other) \/
     (dict_get "dst" fields = JNull /\
      py_int (py_or (dict_get "src" fields) (JInt 0)) = Ok other) ->
     dispatch "queue_move" (JDict fields) gp = Ok gp).
Proof.
  split; [|split; [|split]].
  - intros idx Hi. rewrite dispatch_queue_remove. simpl. rewrite Hi. simpl.
    destruct (Z.le_gt_cases 1 idx) as [Hlo|Hlo];
      [destruct (Z.le_gt_cases idx (q_len gp)) as [Hhi|Hhi]|].
    + destruct (q_remove_in_range gp idx) as (item & _ & ->); [lia|].
      by eexists _, _.
    + rewrite q_remove_out_of_range by lia. by eexists _, _.
    + rewrite q_remove_out_of_range by lia. by eexists _, _.
  - intros src dst Hs Hd. rewrite dispatch_queue_move. simpl.
    rewrite Hs. simpl. rewrite Hd. simpl.
    destruct (decide (1 <= src <= q_len gp /\ 1 <= dst <= q_len gp)) as [[H1 H2]|Hout].
    + destruct (q_move_accepts gp src dst H1 H2) as (item & _ & ->).
      by eexists _, _.
    + rewrite q_move_rejects by done. by eexists _, _.
  - intros Hi. rewrite dispatch_queue_remove. simpl. by rewrite Hi.
  - intros other [[Hs Hd]|[Hd Hs]]; rewrite dispatch_queue_move; simpl.
    + rewrite Hs. cbn [py_or truthy py_int mbind result_bind].
      rewrite Hd. cbn [mbind result_bind].
      by rewrite q_move_rejects by lia.
    + rewrite Hs. cbn [mbind result_bind]. rewrite Hd.
      cbn [py_or truthy py_int mbind result_bind].
      by rewrite q_move_rejects by lia.
Qed.

(** A [loop] record whose [mode] is absent, null or empty sets the repeat
    mode to [off]; a [volume] record whose [level] is absent, null, zero or
    not convertible to an integer sets the volume to 100. *)
Theorem loop_and_volume_defaults fields gp :
  (truthy (dict_get "mode" fields) = false ->
     dispatch "loop" (JDict fields) gp = Ok (set_loop_mode "off" gp)) /\
  (truthy (dict_get "level" fields) = false \/
   (exists e, py_int (dict_get "level" fields) = Raise e) ->
     dispatch "volume" (JDict fields) gp = Ok (set_volume 100 gp)).
Proof.
  split.
  - intros Hm. rewrite dispatch_loop. simpl. unfold py_or. by rewrite Hm.
  - intros Hl. rewrite dispatch_volume. simpl. unfold py_or.
    destruct (truthy (dict_get "level" fields)) eqn:Ht.
    + destruct Hl as [Hl|[e He]]; [done|]. by rewrite He.
    + done.
Qed.

(** The guild id goes through [int]: the JSON value [true] addresses guild 1,
    a finite float is cut toward zero, and a list, an infinity or a NaN make
    the head of [_apply_control] raise, so the record is skipped. *)
Theorem guild_id_goes_through_int a fields :
  (dict_get "guild_id" fields = JBool true ->
     control_target (control_record a fields) = Ok (str_lower a, JDict fields, 1)) /\
  (forall m e, dict_get "guild_id" fields = JFloat (FFinite m e) ->
     control_target (control_record a fields)
       = Ok (str_lower a, JDict fields,
             if 0 <=? e then m * 2 ^ e else Z.quot m (2 ^ (- e)))) /\
  (forall v players,
     dict_get "guild_id" fields = v ->
     (exists x xs, v = JList (x :: xs)) \/ (exists n, v = JFloat (FInf n)) \/
     v = JFloat FNaN ->
     exists e, apply_control (control_record a fields) players = (players, Raise e)).
Proof.
  split; [|split].
  - intros Hg. by rewrite control_target_record, Hg.
  - intros m e Hg. rewrite control_target_record, Hg. unfold py_or. simpl.
    destruct (Z.eqb_spec m 0) as [->|Hm]; simpl; [|done].
    by destruct (0 <=? e).
  - intros v players Hg Hv. unfold apply_control.
    rewrite control_target_record, Hg.
    destruct Hv as [(x & xs & ->)|[(n & ->)| ->]]; simpl; by eexists.
Qed.

Lemma dispatch_play a p gp :
  a = "play" \/ a = "playtop" ->
  dispatch a p gp =
    (q ← py_get p "query";
     let query := str_strip (py_str (py_or q (JStr ""))) in
     if String.eqb query "" then Ok gp
     else
       items ← ytdl_search (if String.prefix "http" query then query
                            else "ytsearch:" +:+ query);
       gp1 ← match items with
             | [] => Ok gp
             | t :: _ =>
                 u ← py_get p "user_id";
                 uid ← py_int (py_or u (JInt 0));
                 Ok (q_add (mkTrack (title t) (url t) (webpage_url t) (duration t)
                                    uid (thumbnail t) (added_at t))
                           (String.eqb a "playtop") gp)
             end;
       Ok (start_player_loop gp1)).
Proof. by intros [-> | ->]. Qed.

(** A [play] or [playtop] record whose query is blank after stripping
    changes nothing, not even the loop task.  Otherwise the loop task is
    running afterwards and, of what the search finds, only the first track is
    queued: at the tail for [play], at the head for [playtop], with the
    record's [user_id] as requester.  A search that finds nothing leaves the
    queue as it was. *)
Theorem play_record_queues_first_result a fields raw gp :
  a = "play" \/ a = "playtop" ->
  dict_get "query" fields = JStr raw ->
  let query := str_strip raw in
  let target := if String.prefix "http" query then query else "ytsearch:" +:+ query in
  (query = "" -> dispatch a (JDict fields) gp = Ok gp) /\
  (query <> "" -> ytdl_search target = Ok [] ->
     dispatch a (JDict fields) gp = Ok (start_player_loop gp)) /\
  (forall t more uid,
     query <> "" -> ytdl_search target = Ok (t :: more) ->
     py_int (py_or (dict_get "user_id" fields) (JInt 0)) = Ok uid ->
     exists gp',
       dispatch a (JDict fields) gp = Ok gp' /\
       play_task gp' = Some TaskRunning /\
       queue gp' =
         (let t' := mkTrack (title t) (url t) (webpage_url t) (duration t)
                            uid (thumbnail t) (added_at t) in
          if String.eqb a "playtop" then t' :: queue gp else queue gp ++ [t']) /\
       q_len gp' = q_len gp + 1 /\
       (current gp', volume gp', loop_mode gp') = (current gp, volume gp, loop_mode gp)).
Proof.
  intros Ha Hq query target.
  assert (Hraw : py_str (py_or (JStr raw) (JStr "")) = raw).
  { unfold py_or. simpl. by destruct (String.eqb_spec raw "") as [->|]. }
  rewrite (dispatch_play a _ gp Ha). simpl. rewrite Hq, Hraw. fold query.
  split; [|split].
  - intros ->. done.
  - intros Hne Hs. destruct (String.eqb_spec query ""); [done|].
    fold target. by rewrite Hs.
  - intros t more uid Hne Hs Hu. destruct (String.eqb_spec query ""); [done|].
    fold target. rewrite Hs. simpl. rewrite Hu. simpl.
    eexists. split; [reflexivity|].
    rewrite start_player_loop_sets.
    split; [done|].
    destruct (String.eqb a "playtop"); simpl.
    + rewrite py_insert_front. repeat split.
      unfold q_len, py_len. simpl. lia.
    + repeat split. unfold q_len, py_len. simpl. rewrite length_app. simpl. lia.
Qed.

(** *** The scheduler loop *)

Lemma play_current_track_only_voice gp gp2 :
  play_current_track gp = Ok gp2 ->
  gp2 = set_next_event (next_event gp2) (set_voice (voice gp2) gp).
Proof.
  unfold play_current_track. intros Hp.
  destruct gp as [g q v0 m c v ne pt rd]. simpl in *.
  destruct v as [v|], c as [t|]; simplify_eq; try done.
  destruct (extract_audio_url _) as [u|]; simplify_eq; [|done].
  destruct (String.eqb u ""); simplify_eq; [done|].
  destruct (vc_play _ v); by simplify_eq/=.
Qed.

Lemma post_completion_held gp :
  held (post_completion gp) ⊆+ held gp /\
  (loop_mode gp = "track" \/ loop_mode gp = "queue" ->
     held (post_completion gp) ≡ₚ held gp) /\
  post_completion gp =
    set_current (current (post_completion gp))
                (set_queue (queue (post_completion gp)) gp).
Proof.
  unfold post_completion, held.
  destruct gp as [g q v0 m [t|] v ne pt rd]; simpl;
    destruct (String.eqb_spec m "track") as [->|Ht]; simpl;
    try destruct (String.eqb_spec m "queue") as [->|Hq]; simpl;
    repeat split; try done; try (intros [?|?]; done).
  - by rewrite <- Permutation_cons_append.
  - intros _. by rewrite <- Permutation_cons_append.
  - by apply submseteq_cons.
Qed.

(** The loop never invents a track and never touches guild id, volume,
    repeat mode, loop task or ready flag: after a pass the player holds, as
    current track and queue together, a sub-multiset of what it held before,
    and the same multiset when the repeat mode is [track] or [queue]. *)
Theorem player_iteration_conserves_tracks gp :
  held (outcome_player (player_iteration gp)) ⊆+ held gp /\
  (loop_mode gp = "track" \/ loop_mode gp = "queue" ->
     held (outcome_player (player_iteration gp)) ≡ₚ held gp) /\
  (let gp' := outcome_player (player_iteration gp) in
   (guild_id gp', volume gp', loop_mode gp', play_task gp', vc_ready gp')
     = (guild_id gp, volume gp, loop_mode gp, play_task gp, vc_ready gp)).
Proof.
  unfold player_iteration.
  destruct (vc_ready gp) eqn:Hr; simpl; [|by rewrite Hr].
  assert (Hgo : forall gp1,
    held gp1 = held gp ->
    (guild_id gp1, volume gp1, loop_mode gp1, play_task gp1, vc_ready gp1)
      = (guild_id gp, volume gp, loop_mode gp, play_task gp, true) ->
    let o := match play_current_track gp1 with
             | Ok gp2 => await_completion gp2
             | Raise _ => Backoff gp1
             end in
    held (outcome_player o) ⊆+ held gp /\
    (loop_mode gp = "track" \/ loop_mode gp = "queue" ->
       held (outcome_player o) ≡ₚ held gp) /\
    (guild_id (outcome_player o), volume (outcome_player o),
     loop_mode (outcome_player o), play_task (outcome_player o),
     vc_ready (outcome_player o))
      = (guild_id gp, volume gp, loop_mode gp, play_task gp, true)).
  { intros gp1 Hh Hf.
    destruct (play_current_track gp1) as [gp2|e] eqn:Hp; simpl.
    - apply play_current_track_only_voice in Hp.
      assert (Hh2 : held gp2 = held gp) by (rewrite Hp; exact Hh).
      assert (Hf2 : (guild_id gp2, volume gp2, loop_mode gp2, play_task gp2, vc_ready gp2)
                    = (guild_id gp, volume gp, loop_mode gp, play_task gp, true))
        by (rewrite Hp; exact Hf).
      unfold await_completion. destruct (next_event gp2); simpl.
      + destruct (post_completion_held gp2) as (Hsub & Hperm & Heq).
        rewrite <- Hh2. split; [done|]. split.
        * intros Hm. apply Hperm.
          assert (Hm2 : loop_mode gp2 = loop_mode gp) by congruence.
          by rewrite Hm2.
        * rewrite Heq. simpl. exact Hf2.
      + rewrite Hh2. split; [done|]. split; [done|exact Hf2].
    - rewrite Hh. split; [done|]. split; [done|exact Hf]. }
  destruct (current gp) as [t|] eqn:Hc; simpl.
  - apply Hgo; [unfold held; simpl; by rewrite Hc|simpl; by rewrite Hr].
  - destruct (queue gp) as [|hd rest] eqn:Hq; simpl.
    + unfold held. simpl. rewrite Hc, Hq, Hr. done.
    + apply Hgo; [unfold held; simpl; by rewrite Hc, Hq|simpl; by rewrite Hr].
Qed.

Lemma player_iteration_pick_and_play gp v t rest src :
  vc_ready gp = true -> current gp = None -> queue gp = t :: rest ->
  voice gp = Some v ->
  extract_audio_url (if String.eqb (url t) "" then webpage_url t else url t) = Some src ->
  src <> "" ->
  player_iteration gp =
    let gp1 := set_current (Some t) (set_queue rest (set_next_event false gp)) in
    match vc_play (mkSource src (volume gp)) v with
    | Ok v' => AwaitCompletion (set_voice (Some v') gp1)
    | Raise _ => Backoff gp1
    end.
Proof.
  intros Hr Hc Hq Hv Hx Hsrc. unfold player_iteration. rewrite Hr. simpl.
  rewrite Hc, Hq. simpl. unfold play_current_track. simpl. rewrite Hv, Hx.
  destruct (String.eqb_spec src ""); [done|].
  by destruct (vc_play _ v).
Qed.

(** First in, first out: with the voice client ready and the current slot
    empty, a pass takes the head of the queue as current track.  When its
    stream url is found and the voice client is connected and not playing,
    the track starts at the stored volume and the loop waits for its
    completion; when the voice client is disconnected or already playing, the
    pass ends in the [except] arm with the track kept in the current slot. *)
Theorem player_iteration_plays_head gp v t rest src :
  vc_ready gp = true -> current gp = None -> queue gp = t :: rest ->
  voice gp = Some v ->
  extract_audio_url (if String.eqb (url t) "" then webpage_url t else url t) = Some src ->
  src <> "" ->
  (vc_connected v = true -> vc_is_playing v = false ->
     exists gp',
       player_iteration gp = AwaitCompletion gp' /\
       current gp' = Some t /\ queue gp' = rest /\
       voice gp' = Some (mkVoice true VPlaying (Some (mkSource src (volume gp))))) /\
  (vc_connected v = false \/ vc_is_playing v = true ->
     exists gp',
       player_iteration gp = Backoff gp' /\
       current gp' = Some t /\ queue gp' = rest /\ voice gp' = Some v).
Proof.
  intros Hr Hc Hq Hv Hx Hsrc.
  rewrite (player_iteration_pick_and_play gp v t rest src) by done.
  unfold vc_play. split.
  - intros -> ->. simpl. by eexists.
  - intros [-> | Hp]; simpl.
    + by eexists.
    + rewrite Hp. destruct (vc_connected v); simpl; by eexists.
Qed.


End SessionExtras.

Lemma transport_records_only_touch_voice_witness :
  let gp := set_voice (Some (mkVoice true VPlaying (Some (mkSource "stream" 100))))
              (set_current (Some (sample_track "X"))
                 (set_queue [sample_track "Y"] (new_player 7))) in
  exists gp',
    dispatch (R := ref_runtime) "pause" (JDict []) gp = Ok gp' /\
    gp' = set_voice (voice gp') gp /\
    (voice gp = None -> gp' = gp).
Proof.
  intros gp.
  apply (transport_records_only_touch_voice (R := ref_runtime) "pause" (JDict []) gp).
  compute_done.
Defined.

Lemma stop_record_needs_voice_witness :
  let gp := set_current (Some (sample_track "X"))
              (set_queue [sample_track "Y"] (new_player 7)) in
  dispatch (R := ref_runtime) "stop" (JDict []) gp = Ok gp /\
  (exists gp', fst (cmd_stop 7 {[7 := gp]}) !! 7 = Some gp' /\
               queue gp' = [] /\ current gp' = None).
Proof.
  intros gp.
  pose proof (stop_record_needs_voice (R := ref_runtime) (JDict []) gp 7 {[7 := gp]}
                (lookup_singleton_eq _ _)) as (Hnone & _ & Hcmd).
  split; [by apply Hnone|exact Hcmd].
Defined.

Lemma panel_and_slash_agree_witness :
  let gp := set_voice (Some (mkVoice true VPlaying (Some (mkSource "stream" 100))))
              (set_queue [sample_track "A"; sample_track "B"] (new_player 7)) in
  let players : gmap Z GuildPlayer := {[7 := gp]} in
  fst (apply_control (R := ref_runtime)
         (control_record "Pause" [("guild_id", JInt 7)]) players)
    = fst (cmd_pause 7 players) /\
  fst (apply_control (R := ref_runtime)
         (control_record "shuffle" [("guild_id", JInt 7)]) players)
    = fst (cmd_shuffle (R := ref_runtime) 7 players).
Proof.
  intros gp players.
  pose proof (panel_and_slash_agree (R := ref_runtime) "Pause" [("guild_id", JInt 7)]
                7 players eq_refl ltac:(discriminate)) as (Hpause & _).
  pose proof (panel_and_slash_agree (R := ref_runtime) "shuffle" [("guild_id", JInt 7)]
                7 players eq_refl ltac:(discriminate)) as (_ & _ & _ & Hshuffle & _).
  split; [by apply Hpause|by apply Hshuffle].
Defined.

Lemma control_loop_keeps_sessions_ok_witness :
  let log := json_text "{'action':'volume','payload':{'guild_id':7,'level':9000}}" ++ [x0a]
             ++ json_text "{'action':'loop','payload':{'guild_id':8,'mode':'banana'}}" ++ [x0a] in
  let after := snd (control_loop (R := ref_runtime) (0%nat, ∅) [Ok log]) in
  (sessions_ok after /\
   (forall g level, sessions_ok (cmd_volume g level ∅)) /\
   (forall g mode, sessions_ok (cmd_loop g mode ∅)) /\
   sessions_ok ∅) /\
  volume <$> after !! 7 = Some 200.
Proof.
  intros log after. split; [|vm_compute; reflexivity].
  apply (control_loop_keeps_sessions_ok (R := ref_runtime) (0%nat, ∅) [Ok log]).
  intros g gp Hl. simpl in Hl. by rewrite lookup_empty in Hl.
Defined.

Lemma queue_records_follow_queue_ops_witness :
  let gp := set_queue [sample_track "A"; sample_track "B"] (new_player 7) in
  (exists o gp1,
     q_remove 2 gp = Ok (o, gp1) /\
     dispatch (R := ref_runtime) "queue_remove" (JDict [("index", JInt 2)]) gp = Ok gp1) /\
  (exists b gp1,
     q_move 2 1 gp = Ok (b, gp1) /\
     dispatch (R := ref_runtime) "queue_move"
       (JDict [("src", JStr " 2 "); ("dst", JInt 1)]) gp = Ok gp1) /\
  dispatch (R := ref_runtime) "queue_remove" (JDict []) gp = Ok gp /\
  dispatch (R := ref_runtime) "queue_move" (JDict [("dst", JInt 2)]) gp = Ok gp.
Proof.
  intros gp. split; [|split; [|split]].
  - apply (proj1 (queue_records_follow_queue_ops (R := ref_runtime)
                    [("index", JInt 2)] gp) 2).
    reflexivity.
  - apply (proj1 (proj2 (queue_records_follow_queue_ops (R := ref_runtime)
                           [("src", JStr " 2 "); ("dst", JInt 1)] gp)) 2 1);
      reflexivity.
  - apply (proj1 (proj2 (proj2 (queue_records_follow_queue_ops (R := ref_runtime) [] gp)))).
    reflexivity.
  - apply (proj2 (proj2 (proj2 (queue_records_follow_queue_ops (R := ref_runtime)
                                  [("dst", JInt 2)] gp))) 2).
    left. split; reflexivity.
Defined.

Lemma loop_and_volume_defaults_witness :
  let gp := set_loop_mode "queue" (set_stored_volume 30 (new_player 7)) in
  dispatch (R := ref_runtime) "loop" (JDict [("mode", JStr "")]) gp
    = Ok (set_loop_mode "off" gp) /\
  dispatch (R := ref_runtime) "volume" (JDict [("level", JStr "loud")]) gp
    = Ok (set_volume 100 gp) /\
  dispatch (R := ref_runtime) "volume" (JDict []) gp = Ok (set_volume 100 gp).
Proof.
  intros gp. split; [|split].
  - apply (proj1 (loop_and_volume_defaults (R := ref_runtime) [("mode", JStr "")] gp)).
    reflexivity.
  - apply (proj2 (loop_and_volume_defaults (R := ref_runtime) [("level", JStr "loud")] gp)).
    right. by eexists.
  - apply (proj2 (loop_and_volume_defaults (R := ref_runtime) [] gp)).
    left. reflexivity.
Defined.

Lemma guild_id_goes_through_int_witness :
  control_target (R := ref_runtime) (control_record "skip" [("guild_id", JBool true)])
    = Ok ("skip", JDict [("guild_id", JBool true)], 1) /\
  control_target (R := ref_runtime)
    (control_record "skip" [("guild_id", JFloat (FFinite (-15) (-1)))])
    = Ok ("skip", JDict [("guild_id", JFloat (FFinite (-15) (-1)))], -7) /\
  (exists e, apply_control (R := ref_runtime)
               (control_record "skip" [("guild_id", JFloat FNaN)]) ∅ = (∅, Raise e)).
Proof.
  split; [|split].
  - apply (proj1 (guild_id_goes_through_int (R := ref_runtime) "skip"
                    [("guild_id", JBool true)])).
    reflexivity.
  - apply (proj1 (proj2 (guild_id_goes_through_int (R := ref_runtime) "skip"
                           [("guild_id", JFloat (FFinite (-15) (-1)))])) (-15) (-1)).
    reflexivity.
  - apply (proj2 (proj2 (guild_id_goes_through_int (R := ref_runtime) "skip"
                           [("guild_id", JFloat FNaN)])) (JFloat FNaN) ∅);
      [reflexivity|by right; right].
Defined.

Lemma play_record_queues_first_result_witness :
  let gp := set_queue [sample_track "A"] (new_player 7) in
  let fields := [("query", JStr "  some song "); ("user_id", JInt 42)] in
  dispatch (R := found_runtime) "play" (JDict [("query", JStr "   ")]) gp = Ok gp /\
  (exists gp',
     dispatch (R := found_runtime) "playtop" (JDict fields) gp = Ok gp' /\
     play_task gp' = Some TaskRunning /\
     queue gp' =
       (let t := sample_track "ytsearch:some song" in
        let t' := mkTrack (title t) (url t) (webpage_url t) (duration t)
                          42 (thumbnail t) (added_at t) in
        if String.eqb "playtop" "playtop" then t' :: queue gp else queue gp ++ [t']) /\
     q_len gp' = q_len gp + 1 /\
     (current gp', volume gp', loop_mode gp') = (current gp, volume gp, loop_mode gp)).
Proof.
  intros gp fields. split.
  - apply (proj1 (play_record_queues_first_result (R := found_runtime) "play"
                    [("query", JStr "   ")] "   " gp (or_introl eq_refl) eq_refl)).
    reflexivity.
  - apply (proj2 (proj2 (play_record_queues_first_result (R := found_runtime) "playtop"
                    fields "  some song " gp (or_intror eq_refl) eq_refl))
             (sample_track "ytsearch:some song") [sample_track "second"] 42);
      [discriminate|reflexivity|reflexivity].
Defined.

Lemma player_iteration_conserves_tracks_witness :
  let gp := set_vc_ready true
              (set_voice (Some (mkVoice true VIdle None))
                 (set_loop_mode "queue"
                    (set_current (Some (sample_track "X"))
                       (set_queue [sample_track "Y"] (new_player 7))))) in
  held (outcome_player (player_iteration (R := ref_runtime) gp)) ≡ₚ held gp.
Proof.
  intros gp.
  apply (proj1 (proj2 (player_iteration_conserves_tracks (R := ref_runtime) gp))).
  right. reflexivity.
Defined.

Lemma player_iteration_plays_head_witness :
  let x := sample_track "X" in
  let y := sample_track "Y" in
  let ready v := set_vc_ready true
                   (set_voice (Some v) (set_stored_volume 80
                      (set_queue [x; y] (new_player 7)))) in
  (exists gp',
     player_iteration (R := found_runtime) (ready (mkVoice true VIdle None))
       = AwaitCompletion gp' /\
     current gp' = Some x /\ queue gp' = [y] /\
     voice gp' = Some (mkVoice true VPlaying
                         (Some (mkSource "stream:https://media.example/X" 80)))) /\
  (exists gp',
     player_iteration (R := found_runtime) (ready (mkVoice false VIdle None))
       = Backoff gp' /\
     current gp' = Some x /\ queue gp' = [y] /\
     voice gp' = Some (mkVoice false VIdle None)).
Proof.
  intros x y ready. split.
  - apply (proj1 (player_iteration_plays_head (R := found_runtime)
                    (ready (mkVoice true VIdle None)) (mkVoice true VIdle None)
                    x [y] "stream:https://media.example/X"
                    eq_refl eq_refl eq_refl eq_refl eq_refl ltac:(discriminate)));
      reflexivity.
  - apply (proj2 (player_iteration_plays_head (R := found_runtime)
                    (ready (mkVoice false VIdle None)) (mkVoice false VIdle None)
                    x [y] "stream:https://media.example/X"
                    eq_refl eq_refl eq_refl eq_refl eq_refl ltac:(discriminate))).
    left. reflexivity.
Defined.


(** ** The control ingestor: poison records and offsets *)

Section IngestExtras.
Context {R : Runtime}.
Implicit Types (data : list byte) (players : gmap Z GuildPlayer).

(** A line that does not decode, or that decodes to a record whose head
    yields no guild, is skipped: the players are as if the line were not in
    the batch, and the lines after it are still applied. *)
Theorem poison_line_is_skipped bad before after players :
  (exists e, json_loads bad = Raise e) \/
  (exists evt, json_loads bad = Ok evt /\
               forall a p g, control_target evt = Ok (a, p, g) -> g = 0) ->
  (forall ps, apply_line ps bad = ps) /\
  foldl apply_line players (before ++ bad :: after)
    = foldl apply_line players (before ++ after).
Proof.
  intros Hbad.
  assert (Hskip : forall ps, apply_line ps bad = ps).
  { intros ps. unfold apply_line.
    destruct Hbad as [[e ->]|(evt & -> & Hnone)]; [done|].
    by rewrite apply_control_dropped. }
  split; [exact Hskip|].
  rewrite !foldl_app. simpl. by rewrite Hskip.
Qed.

(** The read position never moves back.  A tick that cannot open the file,
    or finds it no longer than the position (nothing appended, or the file
    cut short), changes neither position nor players; otherwise the position
    ends at the end of the file.  When the size of the file cannot be read on
    attach, the position starts at 0 and the first tick applies every line
    already in the log. *)
Theorem control_offset_edges pos players :
  (forall file, (pos <= fst (control_tick (pos, players) file))%nat) /\
  (forall e, control_tick (pos, players) (Raise e) = (pos, players)) /\
  (forall data, (length data <= pos)%nat ->
     control_tick (pos, players) (Ok data) = (pos, players)) /\
  (forall data, (pos <= length data)%nat ->
     fst (control_tick (pos, players) (Ok data)) = length data) /\
  (forall e data,
     control_tick (control_attach (Raise e), players) (Ok data)
       = (length data, foldl apply_line players (splitlines data))).
Proof.
  assert (Hshort : forall data, (length data <= pos)%nat ->
            control_tick (pos, players) (Ok data) = (pos, players)).
  { intros data Hl. unfold control_tick, control_read.
    rewrite drop_ge by done. simpl. f_equal. lia. }
  assert (Hlong : forall data, (pos <= length data)%nat ->
            fst (control_tick (pos, players) (Ok data)) = length data).
  { intros data Hl. rewrite control_tick_lines. simpl.
    rewrite length_drop. lia. }
  split; [|split; [done|split; [done|split; [done|]]]].
  - intros [data|e]; [|done].
    destruct (Nat.le_gt_cases pos (length data)) as [Hl|Hl].
    + rewrite Hlong by done. done.
    + rewrite Hshort by lia. done.
  - intros e data. rewrite control_tick_lines. unfold tick_lines, control_read.
    simpl. by rewrite drop_0.
Qed.

End IngestExtras.

Lemma poison_line_is_skipped_witness :
  let bad := bytes_of "not json" in
  let nobody := json_text "{'action':'clear','payload':{}}" in
  let good := json_text "{'action':'clear','payload':{'guild_id':7}}" in
  let players : gmap Z GuildPlayer := {[7 := set_queue [sample_track "A"] (new_player 7)]} in
  foldl (apply_line (R := ref_runtime)) players ([] ++ bad :: [good])
    = foldl (apply_line (R := ref_runtime)) players ([] ++ [good]) /\
  foldl (apply_line (R := ref_runtime)) players ([good] ++ nobody :: [])
    = foldl (apply_line (R := ref_runtime)) players ([good] ++ []).
Proof.
  intros bad nobody good players. split.
  - apply (poison_line_is_skipped (R := ref_runtime) bad [] [good] players).
    left. by eexists.
  - apply (poison_line_is_skipped (R := ref_runtime) nobody [good] [] players).
    right. eexists. split; [reflexivity|].
    intros a p g Ht. vm_compute in Ht. by simplify_eq.
Defined.

Lemma control_offset_edges_witness :
  let data := json_text "{'action':'clear','payload':{'guild_id':7}}" ++ [x0a] in
  let players : gmap Z GuildPlayer := {[7 := set_queue [sample_track "A"] (new_player 7)]} in
  control_tick (R := ref_runtime) (100%nat, players) (Ok data) = (100%nat, players) /\
  fst (control_tick (R := ref_runtime) (0%nat, players) (Ok data)) = length data.
Proof.
  intros data players. split.
  - apply (proj1 (proj2 (proj2 (control_offset_edges (R := ref_runtime) 100 players)))).
    vm_compute. lia.
  - apply (proj1 (proj2 (proj2 (proj2 (control_offset_edges (R := ref_runtime) 0 players))))).
    lia.
Defined.

(** ** The state snapshot *)

Section ExportFacts.
Implicit Types (gp : GuildPlayer) (players : gmap Z GuildPlayer)
               (items : list (Z * GuildPlayer)) (data : gmap string json).

Lemma export_fold_other limit ts data items k :
  (forall g gp, (g, gp) ∈ items -> pretty g <> k) ->
  export_fold limit ts data items !! k = data !! k.
Proof.
  unfold export_fold. revert data.
  induction items as [|[g0 gp0] items IH]; intros data Hk; simpl; [done|].
  rewrite IH by (intros g gp Hin; apply (Hk g gp); by right).
  apply lookup_insert_ne, (Hk g0 gp0). by left.
Qed.

Lemma export_fold_member limit ts data items g gp :
  NoDup (items.*1) -> (g, gp) ∈ items ->
  export_fold limit ts data items !! pretty g = Some (export_entry limit ts g gp).
Proof.
  unfold export_fold. revert data.
  induction items as [|[g0 gp0] items IH]; intros data Hnd Hin; simpl.
  - by apply elem_of_nil in Hin.
  - rewrite fmap_cons in Hnd. apply NoDup_cons in Hnd as [Hfresh Hnd].
    apply elem_of_cons in Hin as [Heq|Hin].
    + injection Heq as <- <-.
      fold (export_fold limit ts (<[pretty g := export_entry limit ts g gp]> data) items).
      rewrite export_fold_other; [apply lookup_insert_eq|].
      intros g' gp' Hin' Heq. apply (inj pretty) in Heq as ->.
      apply Hfresh, list_elem_of_fmap. by exists (g, gp').
    + by apply IH.
Qed.

Lemma export_fold_origin limit ts data items k v :
  export_fold limit ts data items !! k = Some v ->
  data !! k = Some v \/
  exists g gp, (g, gp) ∈ items /\ k = pretty g /\ v = export_entry limit ts g gp.
Proof.
  unfold export_fold. revert data.
  induction items as [|[g0 gp0] items IH]; intros data Hl; simpl in *; [by left|].
  apply IH in Hl as [Hl|(g & gp & Hin & -> & ->)].
  - destruct (decide (pretty g0 = k)) as [<-|Hne].
    + rewrite lookup_insert_eq in Hl. simplify_eq.
      right. exists g0, gp0. split; [by left|done].
    + rewrite lookup_insert_ne in Hl by done. by left.
  - right. exists g, gp. split; [by right|done].
Qed.

(** The snapshot holds exactly one entry per session: each player is found
    under the decimal text of its guild id with the entry built from it, two
    sessions never share a key, and no key is there without a session. *)
Theorem export_data_lists_every_session limit ts players :
  (forall g gp, players !! g = Some gp ->
     export_data limit ts players !! pretty g = Some (export_entry limit ts g gp)) /\
  (forall k v, export_data limit ts players !! k = Some v ->
     exists g gp, players !! g = Some gp /\ k = pretty g /\
                  v = export_entry limit ts g gp) /\
  (forall g, players !! g = None -> export_data limit ts players !! pretty g = None).
Proof.
  assert (Hfwd : forall g gp, players !! g = Some gp ->
     export_data limit ts players !! pretty g = Some (export_entry limit ts g gp)).
  { intros g gp Hl. apply (export_fold_member limit ts ∅ (map_to_list players)).
    - apply NoDup_fst_map_to_list.
    - by apply elem_of_map_to_list. }
  assert (Hback : forall k v, export_data limit ts players !! k = Some v ->
     exists g gp, players !! g = Some gp /\ k = pretty g /\
                  v = export_entry limit ts g gp).
  { intros k v Hl.
    apply (export_fold_origin limit ts ∅ (map_to_list players)) in Hl
      as [Hl|(g & gp & Hin & -> & ->)].
    - by rewrite lookup_empty in Hl.
    - exists g, gp. split; [by apply elem_of_map_to_list|done]. }
  split; [done|]. split; [done|].
  intros g Hnone.
  destruct (export_data limit ts players !! pretty g) as [v|] eqn:Hl; [|done].
  apply Hback in Hl as (g' & gp & Hl' & Heq & _).
  apply (inj pretty) in Heq as <-. congruence.
Qed.

Lemma export_data_lists_every_session_witness :
  let gp := set_current (Some (sample_track "X")) (new_player 7) in
  let players : gmap Z GuildPlayer := {[7 := gp; -3 := new_player (-3)]} in
  export_data 100 1700000000 players !! "-3"
    = Some (export_entry 100 1700000000 (-3) (new_player (-3))) /\
  export_data 100 1700000000 players !! pretty 5 = None.
Proof.
  intros gp players. split.
  - apply (proj1 (export_data_lists_every_session 100 1700000000 players) (-3)).
    reflexivity.
  - apply (proj2 (proj2 (export_data_lists_every_session 100 1700000000 players)) 5).
    reflexivity.
Defined.

Lemma py_prefix_nonneg {A : Type} (n : Z) (l : list A) :
  0 <= n -> py_prefix n l = take (Z.to_nat n) l.
Proof.
  intros Hn. unfold py_prefix, py_len.
  destruct (Z.ltb_spec n 0); [lia|].
  destruct (Z.le_gt_cases n (Z.of_nat (length l))) as [Hle|Hgt].
  - by rewrite Z.min_l by lia.
  - rewrite Z.min_r by lia. rewrite Nat2Z.id.
    by rewrite !take_ge by lia.
Qed.

Lemma py_prefix_negative {A : Type} (n : Z) (l : list A) :
  n < 0 -> py_prefix n l = take (length l - Z.to_nat (- n)) l.
Proof.
  intros Hn. unfold py_prefix, py_len.
  destruct (Z.ltb_spec n 0); [|lia].
  f_equal. lia.
Qed.

(** The snapshot entry of a session reports the full length of its queue
    but previews at most [limit] tracks, the first ones in queue order; a
    negative limit previews all but the last [-limit] tracks.  Without a
    current track the entry has null title, url and thumbnail and duration
    0. *)
Theorem export_entry_preview_bounded limit ts g gp :
  py_get (export_entry limit ts g gp) "queue_len"
    = Ok (JInt (Z.of_nat (length (queue gp)))) /\
  (exists preview,
     py_get (export_entry limit ts g gp) "queue" = Ok (JList (brief <$> preview)) /\
     (0 <= limit ->
        preview = take (Z.to_nat limit) (queue gp) /\
        Z.of_nat (length preview) = Z.min limit (Z.of_nat (length (queue gp)))) /\
     (limit < 0 ->
        preview = take (length (queue gp) - Z.to_nat (- limit)) (queue gp))) /\
  (current gp = None ->
     py_get (export_entry limit ts g gp) "title" = Ok JNull /\
     py_get (export_entry limit ts g gp) "url" = Ok JNull /\
     py_get (export_entry limit ts g gp) "thumb" = Ok JNull /\
     py_get (export_entry limit ts g gp) "duration" = Ok (JInt 0)) /\
  (forall cur, current gp = Some cur ->
     py_get (export_entry limit ts g gp) "title" = Ok (JStr (display_title cur)) /\
     py_get (export_entry limit ts g gp) "duration" = Ok (JInt (duration cur))).
Proof.
  split; [done|]. split; [|split].
  - exists (py_prefix limit (queue gp)). split; [done|]. split.
    + intros Hl. rewrite py_prefix_nonneg by done. split; [done|].
      rewrite length_take. lia.
    + intros Hl. by rewrite py_prefix_negative.
  - intros Hc. unfold export_entry. by rewrite Hc.
  - intros cur Hc. unfold export_entry. by rewrite Hc.
Qed.

Lemma export_entry_preview_bounded_witness :
  let gp := set_queue (sample_track <$> ["A"; "B"; "C"]) (new_player 7) in
  (exists preview,
     py_get (export_entry 2 0 7 gp) "queue" = Ok (JList (brief <$> preview)) /\
     (0 <= 2 ->
        preview = take (Z.to_nat 2) (queue gp) /\
        Z.of_nat (length preview) = Z.min 2 (Z.of_nat (length (queue gp)))) /\
     (2 < 0 ->
        preview = take (length (queue gp) - Z.to_nat (- 2)) (queue gp))) /\
  py_get (export_entry 2 0 7 gp) "title" = Ok JNull /\
  py_get (export_entry 2 0 7 gp) "url" = Ok JNull /\
  py_get (export_entry 2 0 7 gp) "thumb" = Ok JNull /\
  py_get (export_entry 2 0 7 gp) "duration" = Ok (JInt 0).
Proof.
  intros gp. split.
  - apply (proj1 (proj2 (export_entry_preview_bounded 2 0 7 gp))).
  - apply (proj1 (proj2 (proj2 (export_entry_preview_bounded 2 0 7 gp)))).
    reflexivity.
Defined.

(** [display_title] is the title, else the page url, else the stream url, so
    it is empty only when all three are; [brief] shows it as the title. *)
Theorem display_title_falls_back t :
  (title t <> "" -> display_title t = title t) /\
  (title t = "" -> webpage_url t <> "" -> display_title t = webpage_url t) /\
  (title t = "" -> webpage_url t = "" -> display_title t = url t) /\
  (display_title t = "" <-> title t = "" /\ webpage_url t = "" /\ url t = "") /\
  py_get (brief t) "title" = Ok (JStr (display_title t)).
Proof.
  split; [|split; [|split; [|split; [|reflexivity]]]];
    unfold display_title;
    destruct (String.eqb_spec (title t) "") as [Ht|Ht];
    destruct (String.eqb_spec (webpage_url t) "") as [Hw|Hw]; simpl;
    try done; try tauto; split; try tauto; intros (? & ? & ?); congruence.
Qed.

Lemma display_title_falls_back_witness :
  display_title (mkTrack "" "stream" "" 0 0 None 0) = "stream" /\
  display_title (sample_track "A") = "A".
Proof.
  split.
  - by apply (proj1 (proj2 (proj2 (display_title_falls_back
                                      (mkTrack "" "stream" "" 0 0 None 0))))).
  - by apply (proj1 (display_title_falls_back (sample_track "A"))).
Defined.

End ExportFacts.

(** ** Slash commands and autocomplete *)

Section CommandFacts.
Variable str_prefix : Z -> string -> string.
Implicit Types (gp : GuildPlayer) (players : gmap Z GuildPlayer).

(** [cmd_remove] answers with the title of the removed track when the number
    is a position of the queue, and takes exactly that track out; otherwise
    it answers that the number is wrong and changes nothing.  [cmd_move]
    answers that the track was moved exactly when both numbers are positions
    of the queue, and otherwise changes nothing. *)
Theorem remove_and_move_replies g gp players :
  players !! g = Some gp ->
  (forall index, index < 1 \/ q_len gp < index ->
     cmd_remove g index players = Ok (players, "Неверный номер.")) /\
  (forall index, 1 <= index <= q_len gp ->
     exists t,
       queue gp !! Z.to_nat (index - 1) = Some t /\
       cmd_remove g index players =
         Ok (<[g := set_queue (delete (Z.to_nat (index - 1)) (queue gp)) gp]> players,
             "🗑 Удалён: **" +:+ display_title t +:+ "**")) /\
  (forall src dst, ~ (1 <= src <= q_len gp /\ 1 <= dst <= q_len gp) ->
     cmd_move g src dst players = Ok (players, "❌ Неверные позиции.")) /\
  (forall src dst, 1 <= src <= q_len gp -> 1 <= dst <= q_len gp ->
     exists gp1,
       q_move src dst gp = Ok (true, gp1) /\
       cmd_move g src dst players = Ok (<[g := gp1]> players, "✅ Перемещено.")).
Proof.
  intros Hl.
  assert (Hget : get_player g players = (gp, players)).
  { unfold get_player. by rewrite Hl. }
  split; [|split; [|split]].
  - intros index Hout. unfold cmd_remove. rewrite Hget.
    rewrite q_remove_out_of_range by done. simpl. by rewrite insert_id.
  - intros index Hin. unfold cmd_remove. rewrite Hget.
    destruct (q_remove_in_range gp index Hin) as (t & Ht & ->).
    by exists t.
  - intros src dst Hout. unfold cmd_move. rewrite Hget.
    rewrite q_move_rejects by done. simpl. by rewrite insert_id.
  - intros src dst Hs Hd. unfold cmd_move. rewrite Hget.
    destruct (q_move_accepts gp src dst Hs Hd) as (item & _ & ->).
    by eexists.
Qed.

Lemma remove_and_move_replies_witness :
  let gp := set_queue (sample_track <$> ["A"; "B"; "C"]) (new_player 7) in
  let players : gmap Z GuildPlayer := {[7 := gp]} in
  cmd_remove 7 4 players = Ok (players, "Неверный номер.") /\
  (exists t,
     queue gp !! Z.to_nat (2 - 1) = Some t /\
     cmd_remove 7 2 players =
       Ok (<[7 := set_queue (delete (Z.to_nat (2 - 1)) (queue gp)) gp]> players,
           "🗑 Удалён: **" +:+ display_title t +:+ "**")) /\
  cmd_move 7 0 2 players = Ok (players, "❌ Неверные позиции.").
Proof.
  intros gp players.
  pose proof (remove_and_move_replies 7 gp players (lookup_singleton_eq _ _))
    as (Hbad & Hgood & Hmove & _).
  split; [|split].
  - apply Hbad. right. reflexivity.
  - apply Hgood. vm_compute. split; discriminate.
  - apply Hmove. vm_compute. intros [[H _] _]. by apply H.
Defined.



End CommandFacts.


(** ** A broken track in repeat mode [track] *)

Section TrackModeStall.
Context {R : Runtime}.
Implicit Types (gp : GuildPlayer).

Lemma broken_track_pass_in_track_mode gp v t :
  vc_ready gp = true -> voice gp = Some v -> current gp = Some t ->
  loop_mode gp = "track" ->
  (let query := if String.eqb (url t) "" then webpage_url t else url t in
   extract_audio_url query = None \/ extract_audio_url query = Some "") ->
  player_iteration gp = Completed (set_next_event true gp).
Proof.
  intros Hr Hv Hc Hm Hx. unfold player_iteration. rewrite Hr. simpl.
  rewrite Hc. simpl. rewrite (play_current_track_no_stream _ v t) by done.
  unfold await_completion. simpl.
  by rewrite (post_completion_track _ t).
Qed.

(** C7, where the code departs from it.  In repeat mode [track], a current
    track whose stream url cannot be extracted is not skipped: the pass runs
    through the repeat-mode dispatch without blocking or raising, and the
    dispatch keeps the track, so after any number of passes the same track is
    still current, the next pass fails on it again, and the queue is as it
    was, none of its items taken. *)
Theorem broken_track_stalls_in_track_mode gp v t :
  vc_ready gp = true -> voice gp = Some v -> current gp = Some t ->
  loop_mode gp = "track" ->
  (let query := if String.eqb (url t) "" then webpage_url t else url t in
   extract_audio_url query = None \/ extract_audio_url query = Some "") ->
  forall n,
    let gp_n := Nat.iter n (fun g => outcome_player (player_iteration g)) gp in
    player_iteration gp_n = Completed (set_next_event true gp) /\
    current gp_n = Some t /\
    queue gp_n = queue gp.
Proof.
  intros Hr Hv Hc Hm Hx n.
  induction n as [|n IH]; simpl.
  - split; [by apply (broken_track_pass_in_track_mode gp v t)|done].
  - destruct IH as (-> & _ & _). simpl.
    split; [|done].
    by rewrite (broken_track_pass_in_track_mode (set_next_event true gp) v t).
Qed.

End TrackModeStall.

Lemma broken_track_stalls_in_track_mode_witness :
  let x := sample_track "X" in
  let y := sample_track "Y" in
  let gp := set_vc_ready true
              (set_voice (Some (mkVoice true VIdle None))
                 (set_loop_mode "track"
                    (set_current (Some x) (set_queue [y] (new_player 7))))) in
  let gp_n := Nat.iter 3 (fun g => outcome_player (player_iteration (R := ref_runtime) g)) gp in
  player_iteration (R := ref_runtime) gp_n = Completed (set_next_event true gp) /\
  current gp_n = Some x /\
  queue gp_n = [y].
Proof.
  intros x y gp.
  apply (broken_track_stalls_in_track_mode (R := ref_runtime) gp
           (mkVoice true VIdle None) x eq_refl eq_refl eq_refl eq_refl
           (or_introl eq_refl) 3).
Defined.
